(** * Heston model: path simulator, semi-closed-form pricer and table wrappers

    A shallow embedding of [library/heston.py].

    - Python exceptions are the [Raise] outcomes of the [result] monad.
    - The simulator is written once over an arithmetic interface [Arith]
      and run at two instances: IEEE binary64 (the kernel's primitive
      floats, which is what numpy computes with, NaN included) and exact
      real arithmetic (used for algebraic identities only).
    - The pricer is embedded over exact real and complex arithmetic;
      rounding, overflow and NaN are outside that part of the model.
    - [scipy.integrate.quad], [pandas.date_range] and numpy's random source
      are external: the quadrature routine is a parameter that decides which
      points it samples, the calendar is a parameter, and the random source
      is an explicit stream of samples with a cursor. *)

From Stdlib Require Import Floats.
From Stdlib Require Import ZArith Reals Lra Lia Ring.
From stdpp Require Import base option list gmap strings.

(** ** Python outcomes *)

Inductive exn : Type :=
  | IndexError
  | ValueError
  | KeyError
  | UnboundLocalError   (* a subclass of NameError *)
  | ZeroDivisionError.

Inductive result (A : Type) : Type :=
  | Ok (a : A)
  | Raise (e : exn).
Arguments Ok {A} a.
Arguments Raise {A} e.

#[export] Instance result_ret : MRet result := fun A a => Ok a.
#[export] Instance result_bind : MBind result :=
  fun A B f m => match m with Ok a => f a | Raise e => Raise e end.

Lemma bind_Ok {A B : Type} (a : A) (f : A -> result B) : (Ok a ≫= f) = f a.
Proof. reflexivity. Qed.

Lemma bind_Raise {A B : Type} (e : exn) (f : A -> result B) :
  (Raise e ≫= f) = Raise e.
Proof. reflexivity. Qed.

(** Rewrite the next call of a [do] block with its known outcome. *)
Ltac run_with H := rewrite H; rewrite ?bind_Ok, ?bind_Raise; cbv beta.

(** A [for] loop whose body may raise: the first exception ends the loop. *)
Fixpoint foldM {A B : Type} (body : B -> A -> result A) (l : list B) (a : A)
  : result A :=
  match l with
  | [] => Ok a
  | b :: l' => a' ← body b a; foldM body l' a'
  end.

(** [a[i]] and [a[i] = x] on a one-dimensional array: out of range raises. *)
Definition getitem {A : Type} (a : list A) (i : nat) : result A :=
  match a !! i with
  | Some x => Ok x
  | None => Raise IndexError
  end.

Definition setitem {A : Type} (a : list A) (i : nat) (x : A) : result (list A) :=
  if decide (i < length a)%nat then Ok (<[i := x]> a) else Raise IndexError.

Arguments getitem : simpl never.
Arguments setitem : simpl never.

(** ** The arithmetic the simulator is written over *)

Class Arith (F : Type) : Type := {
  of_Z : Z -> F;            (* an integer literal used as a float *)
  fadd : F -> F -> F;
  fsub : F -> F -> F;
  fmul : F -> F -> F;
  fdiv : F -> F -> F;
  fsqrt : F -> F            (* np.sqrt *)
}.

Declare Scope arith_scope.
Delimit Scope arith_scope with ar.
Notation "x + y" := (fadd x y) : arith_scope.
Notation "x - y" := (fsub x y) : arith_scope.
Notation "x * y" := (fmul x y) : arith_scope.
Notation "x / y" := (fdiv x y) : arith_scope.

(** [x ** 2] *)
Definition sq {F : Type} `{Arith F} (x : F) : F := (x * x)%ar.

(** IEEE binary64. *)
Definition float_of_Z (z : Z) : float :=
  match z with
  | Z0 => 0%float
  | Zpos _ => PrimFloat.of_uint63 (Uint63.of_Z z)
  | Zneg p => (- PrimFloat.of_uint63 (Uint63.of_Z (Zpos p)))%float
  end.

#[export] Instance float_arith : Arith float := {
  of_Z := float_of_Z;
  fadd := PrimFloat.add;
  fsub := PrimFloat.sub;
  fmul := PrimFloat.mul;
  fdiv := PrimFloat.div;
  fsqrt := PrimFloat.sqrt
}.

(** Exact real arithmetic. *)
#[export] Instance real_arith : Arith R := {
  of_Z := IZR;
  fadd := Rplus;
  fsub := Rminus;
  fmul := Rmult;
  fdiv := Rdiv;
  fsqrt := sqrt
}.

(** ** simulate_heston *)

Module Simulator.
Section Sim.
Context {F : Type} `{Arith F}.
(** Dates, and [pd.date_range(start, end, freq='B').to_pydatetime()]. *)
Context {D : Type} (date_range : D -> D -> list D).

Local Open Scope arith_scope.

(** The [params] dictionary, with the keys the function reads. *)
Record params : Type := {
  mu : F; kappa : F; theta : F; sigma : F; rho : F;
  s0 : F; v0 : F;
  start_date : D; end_date : D
}.

(** The process-wide random source: the samples it will deliver and how
    many have been consumed. *)
Record rng : Type := { samples : nat -> F; cursor : nat }.

(** [np.random.standard_normal(n)]: a negative size is a ValueError. *)
Definition standard_normal (n : Z) (g : rng) : result (list F * rng) :=
  if decide (n < 0)%Z then Raise ValueError
  else
    let k := Z.to_nat n in
    Ok (samples g <$> seq (cursor g) k,
        {| samples := samples g; cursor := (cursor g + k)%nat |}).

(** Line 31: [rho * w0 + np.sqrt(1 - rho ** 2) * w1], elementwise. *)
Definition correlate (rho : F) (w0 w1 : list F) : list F :=
  zip_with (fun a b => rho * a + fsqrt (of_Z 1 - sq rho) * b) w0 w1.

Definition day_count : Z := 253.
Definition dt : F := of_Z 1 / of_Z day_count.

(** The two assignments of the loop body, as functions of the values read. *)
Definition euler_S (mu : F) (s v z0 : F) : F :=
  s * (of_Z 1 + mu * dt + fsqrt (v * dt) * z0).

Definition milstein_V (kappa theta sigma : F) (v z1 : F) : F :=
  v + kappa * (theta - v) * dt
    + sigma * fsqrt (v * dt) * z1
    + of_Z 1 / of_Z 4 * sq sigma * dt * (sq z1 - of_Z 1).

(** The body of [for t in range(1, m)], on the two rows of [path]. *)
Definition loop_body (p : params) (w0 w1 : list F) (t : nat)
    (path : list F * list F) : result (list F * list F) :=
  let '(ps, pv) := path in
  s ← getitem ps (t - 1)%nat;
  v ← getitem pv (t - 1)%nat;
  z0 ← getitem w0 (t - 1)%nat;
  ps ← setitem ps t (euler_S (mu p) s v z0);
  v ← getitem pv (t - 1)%nat;
  z1 ← getitem w1 (t - 1)%nat;
  pv ← setitem pv t (milstein_V (kappa p) (theta p) (sigma p) v z1);
  Ok (ps, pv).

(** Lines 29-31: the asset shocks, and the variance shocks built from them
    and from a second, auxiliary draw. *)
Definition draw_shocks (rho : F) (m : nat) (g : rng)
    : result (list F * list F * rng) :=
  '(w0, g) ← standard_normal (Z.of_nat m - 1)%Z g;
  '(w1, g) ← standard_normal (Z.of_nat m - 1)%Z g;
  let w1 := correlate rho w0 w1 in
  Ok (w0, w1, g).

(** The returned frame: one line per date, columns S0 and Var0. *)
Definition frame : Type := list (D * (F * F)).

Definition simulate_heston (p : params) (g : rng) : result (frame * rng) :=
  let time_grid := date_range (start_date p) (end_date p) in
  let m := length time_grid in
  let ps := replicate m (of_Z 0) in
  let pv := replicate m (of_Z 0) in
  ps ← setitem ps 0 (s0 p);
  pv ← setitem pv 0 (v0 p);
  '(w0, w1, g) ← draw_shocks (rho p) m g;
  path ← foldM (loop_body p w0 w1) (seq 1 (m - 1)) (ps, pv);
  Ok (zip time_grid (zip path.1 path.2), g).

(** *** What the loop establishes *)

(** Entry [t] of both rows is the loop body's value at entry [t - 1]. *)
Definition step_at (p : params) (w0 w1 ps pv : list F) (t : nat) : Prop :=
  ∃ s v z0 z1,
    ps !! (t - 1)%nat = Some s ∧ pv !! (t - 1)%nat = Some v ∧
    w0 !! (t - 1)%nat = Some z0 ∧ w1 !! (t - 1)%nat = Some z1 ∧
    ps !! t = Some (euler_S (mu p) s v z0) ∧
    pv !! t = Some (milstein_V (kappa p) (theta p) (sigma p) v z1).

Lemma getitem_lt {A : Type} (a : list A) (i : nat) :
  (i < length a)%nat → ∃ x, a !! i = Some x ∧ getitem a i = Ok x.
Proof.
  intros Hi. destruct (lookup_lt_is_Some_2 a i Hi) as [x Hx].
  exists x. unfold getitem. by rewrite Hx.
Qed.

Lemma setitem_lt {A : Type} (a : list A) (i : nat) (x : A) :
  (i < length a)%nat → setitem a i x = Ok (<[i := x]> a).
Proof. intros Hi. unfold setitem. by rewrite decide_True. Qed.

Lemma setitem_ge {A : Type} (a : list A) (i : nat) (x : A) :
  (length a ≤ i)%nat → setitem a i x = Raise IndexError.
Proof. intros Hi. unfold setitem. rewrite decide_False; [done | lia]. Qed.

Lemma loop_body_ok (p : params) (w0 w1 ps pv : list F) (t : nat) :
  (1 ≤ t)%nat → (t < length ps)%nat → length pv = length ps →
  (t - 1 < length w0)%nat → (t - 1 < length w1)%nat →
  ∃ s v z0 z1,
    ps !! (t - 1)%nat = Some s ∧ pv !! (t - 1)%nat = Some v ∧
    w0 !! (t - 1)%nat = Some z0 ∧ w1 !! (t - 1)%nat = Some z1 ∧
    loop_body p w0 w1 t (ps, pv) =
      Ok (<[t := euler_S (mu p) s v z0]> ps,
          <[t := milstein_V (kappa p) (theta p) (sigma p) v z1]> pv).
Proof.
  intros Ht Hps Hpv Hw0 Hw1.
  destruct (getitem_lt ps (t - 1)) as (s & Hs & Gs); [lia|].
  destruct (getitem_lt pv (t - 1)) as (v & Hv & Gv); [lia|].
  destruct (getitem_lt w0 (t - 1)) as (z0 & Hz0 & Gz0); [done|].
  destruct (getitem_lt w1 (t - 1)) as (z1 & Hz1 & Gz1); [done|].
  exists s, v, z0, z1. repeat split; try done.
  unfold loop_body.
  run_with Gs. run_with Gv. run_with Gz0.
  run_with (setitem_lt ps t (euler_S (mu p) s v z0) Hps).
  run_with Gz1.
  rewrite setitem_lt by lia. done.
Qed.

Lemma loop_ok (p : params) (w0 w1 : list F) (m : nat) :
  length w0 = (m - 1)%nat → length w1 = (m - 1)%nat →
  ∀ (n a : nat) (ps pv : list F),
    (1 ≤ a)%nat → (a + n = m)%nat →
    length ps = m → length pv = m →
    (∀ t, (1 ≤ t < a)%nat → step_at p w0 w1 ps pv t) →
    ∃ ps' pv',
      foldM (loop_body p w0 w1) (seq a n) (ps, pv) = Ok (ps', pv') ∧
      length ps' = m ∧ length pv' = m ∧
      ps' !! 0%nat = ps !! 0%nat ∧ pv' !! 0%nat = pv !! 0%nat ∧
      (∀ t, (1 ≤ t < m)%nat → step_at p w0 w1 ps' pv' t).
Proof.
  intros Hw0 Hw1. induction n as [|n IH]; intros a ps pv Ha Han Hps Hpv Hinv.
  - exists ps, pv. cbn. repeat split; try done.
    intros t Ht. apply Hinv. lia.
  - destruct (loop_body_ok p w0 w1 ps pv a) as (s & v & z0 & z1 & Hs & Hv & Hz0 & Hz1 & Hb);
      [lia..|].
    cbn [seq foldM]. rewrite Hb. cbn.
    destruct (IH (S a) (<[a := euler_S (mu p) s v z0]> ps)
                (<[a := milstein_V (kappa p) (theta p) (sigma p) v z1]> pv))
      as (ps' & pv' & Hf & Hl1 & Hl2 & H01 & H02 & Hall).
    + lia.
    + lia.
    + by rewrite length_insert.
    + by rewrite length_insert.
    + intros t Ht. destruct (decide (t = a)) as [->|Hne].
      * exists s, v, z0, z1.
        rewrite !list_lookup_insert_ne by lia.
        rewrite !list_lookup_insert_eq by lia. done.
      * destruct (Hinv t) as (s' & v' & z0' & z1' & ? & ? & ? & ? & ? & ?); [lia|].
        exists s', v', z0', z1'.
        rewrite !list_lookup_insert_ne by lia. done.
    + exists ps', pv'. rewrite Hf. repeat split; try done.
      * rewrite H01. apply list_lookup_insert_ne. lia.
      * rewrite H02. apply list_lookup_insert_ne. lia.
Qed.

Lemma standard_normal_ok (n : nat) (g : rng) :
  standard_normal (Z.of_nat n) g =
    Ok (samples g <$> seq (cursor g) n,
        {| samples := samples g; cursor := (cursor g + n)%nat |}).
Proof.
  unfold standard_normal. rewrite decide_False by lia.
  by rewrite Nat2Z.id.
Qed.

Lemma draw_shocks_ok (r : F) (m : nat) (g : rng) :
  (1 ≤ m)%nat →
  draw_shocks r m g =
    Ok (samples g <$> seq (cursor g) (m - 1),
        correlate r (samples g <$> seq (cursor g) (m - 1))
                    (samples g <$> seq (cursor g + (m - 1)) (m - 1)),
        {| samples := samples g;
           cursor := (cursor g + (m - 1) + (m - 1))%nat |}).
Proof.
  intros Hm. unfold draw_shocks.
  replace (Z.of_nat m - 1)%Z with (Z.of_nat (m - 1)) by lia.
  rewrite standard_normal_ok. cbn. rewrite standard_normal_ok. done.
Qed.

Lemma draw_shocks_length (r : F) (m : nat) (g g' : rng) (w0 w1 : list F) :
  draw_shocks r m g = Ok (w0, w1, g') →
  length w0 = (m - 1)%nat ∧ length w1 = (m - 1)%nat.
Proof.
  unfold draw_shocks, standard_normal.
  destruct (decide (Z.of_nat m - 1 < 0)%Z) as [|Hm]; [done|]. cbn.
  intros [= <- <- <-].
  unfold correlate.
  rewrite length_zip_with, !length_fmap, !length_seq. lia.
Qed.

(** The columns of the returned frame. *)
Definition col_S (df : frame) : list F := (λ r, r.2.1) <$> df.
Definition col_V (df : frame) : list F := (λ r, r.2.2) <$> df.
Definition index (df : frame) : list D := (λ r, r.1) <$> df.

Lemma frame_columns (grid : list D) (ps pv : list F) :
  length ps = length grid → length pv = length grid →
  index (zip grid (zip ps pv)) = grid ∧
  col_S (zip grid (zip ps pv)) = ps ∧
  col_V (zip grid (zip ps pv)) = pv.
Proof.
  unfold index, col_S, col_V. revert ps pv.
  induction grid as [|d grid IH]; intros [|s ps] [|v pv] Hps Hpv;
    try discriminate; [done|].
  cbn in Hps, Hpv. destruct (IH ps pv) as (Hi & Hs & Hv); [lia..|].
  cbn. by rewrite Hi, Hs, Hv.
Qed.

(** With at least one grid point the function returns, whatever the
    parameters are; the frame has the grid as index and its columns obey
    the loop body from one line to the next. *)
Lemma simulate_heston_run (p : params) (g : rng) :
  let grid := date_range (start_date p) (end_date p) in
  (1 ≤ length grid)%nat →
  ∃ df w0 w1 g',
    draw_shocks (rho p) (length grid) g = Ok (w0, w1, g') ∧
    simulate_heston p g = Ok (df, g') ∧
    index df = grid ∧
    col_S df !! 0%nat = Some (s0 p) ∧
    col_V df !! 0%nat = Some (v0 p) ∧
    (∀ t, (1 ≤ t < length grid)%nat →
          step_at p w0 w1 (col_S df) (col_V df) t).
Proof.
  intros grid Hm.
  pose proof (draw_shocks_ok (rho p) (length grid) g Hm) as Hd.
  destruct (draw_shocks_length _ _ _ _ _ _ Hd) as [Hl0 Hl1].
  set (w0 := samples g <$> seq (cursor g) (length grid - 1)) in *.
  set (w1 := correlate (rho p) w0 _) in *.
  set (g' := Build_rng _ _) in *.
  set (ps0 := <[0%nat := s0 p]> (replicate (length grid) (of_Z 0))).
  set (pv0 := <[0%nat := v0 p]> (replicate (length grid) (of_Z 0))).
  destruct (loop_ok p w0 w1 (length grid) Hl0 Hl1 (length grid - 1) 1 ps0 pv0)
    as (ps & pv & Hf & Hps & Hpv & H0s & H0v & Hall).
  - lia.
  - lia.
  - unfold ps0. by rewrite length_insert, length_replicate.
  - unfold pv0. by rewrite length_insert, length_replicate.
  - intros t Ht. lia.
  - destruct (frame_columns grid ps pv Hps Hpv) as (Hi & Hs & Hv).
    exists (zip grid (zip ps pv)), w0, w1, g'.
    rewrite Hi, Hs, Hv. repeat split; try done.
    + unfold simulate_heston. fold grid.
      rewrite !setitem_lt by (rewrite length_replicate; lia).
      rewrite !bind_Ok. fold ps0 pv0. run_with Hd. run_with Hf. done.
    + rewrite H0s. unfold ps0. apply list_lookup_insert_eq.
      rewrite length_replicate. lia.
    + rewrite H0v. unfold pv0. apply list_lookup_insert_eq.
      rewrite length_replicate. lia.
Qed.

(** With an empty grid the first store into [path] is out of range. *)
Lemma simulate_heston_empty (p : params) (g : rng) :
  date_range (start_date p) (end_date p) = [] →
  simulate_heston p g = Raise IndexError.
Proof. intros Hg. unfold simulate_heston. rewrite Hg. reflexivity. Qed.



End Sim.

(** *** A calendar and inputs to run the function on *)

(** Days are numbered from a Monday; the business days of [a..b] are those
    whose number is below 5 modulo 7. *)
Definition business_days (a b : Z) : list Z :=
  filter (λ d, (d `mod` 7 < 5)%Z) (seqZ a (b - a + 1)).

Definition example_samples (i : nat) : float :=
  nth i [0.5; (-0.25); 1; 1; (-0.25); 0.25]%float 0%float.

Definition example_rng : rng :=
  {| samples := example_samples; cursor := 0 |}.

(** Monday to Thursday, with a small initial variance and a large
    volatility of variance. *)
Definition example_params : params :=
  {| mu := 0.0625%float; kappa := 2%float; theta := 0.03125%float;
     sigma := 1%float; rho := (-0.5)%float;
     s0 := 100%float; v0 := 0.0001220703125%float;
     start_date := 0%Z; end_date := 3%Z |}.


(** The asset equation as C2 states it, with the guard max(V, 0) under the
    square root. *)
Definition guarded_euler_S (mu s v z0 : float) : float :=
  (s * (1 + mu * (1 / 253)
        + PrimFloat.sqrt ((if PrimFloat.ltb v 0 then 0 else v) * (1 / 253))
          * z0))%float.



(** *** The two shock sequences, in exact arithmetic *)

Lemma zip_with_left {A B : Type} (f : A → A) (h : A → B → A) (l : list A)
    (k : list B) :
  (∀ a b, h a b = f a) → length l = length k → zip_with h l k = f <$> l.
Proof.
  intros Hh. revert k. induction l as [|a l IH]; intros [|b k] Hlen;
    try discriminate; [done|].
  cbn in *. rewrite Hh, IH by lia. done.
Qed.

Lemma correlate_plus_one (w0 aux : list R) :
  length w0 = length aux → correlate 1%R w0 aux = w0.
Proof.
  intros Hlen. unfold correlate.
  rewrite (zip_with_left id); [by rewrite list_fmap_id|..|done].
  intros a b. unfold sq. cbn.
  replace (1 - 1 * 1)%R with 0%R by ring. rewrite sqrt_0. unfold id. ring.
Qed.

Lemma correlate_minus_one (w0 aux : list R) :
  length w0 = length aux → correlate (-1)%R w0 aux = Ropp <$> w0.
Proof.
  intros Hlen. unfold correlate.
  rewrite (zip_with_left Ropp); [done|..|done].
  intros a b. unfold sq. cbn.
  replace (1 - -1 * -1)%R with 0%R by ring. rewrite sqrt_0. ring.
Qed.

(** C8. On a grid of m >= 1 points the function draws the m-1 asset shocks
    w0 and then m-1 auxiliary samples aux from the random source, and forms
    the variance shocks as w1 = rho*w0 + sqrt(1 - rho^2)*aux elementwise;
    in exact arithmetic w1 = w0 when rho = 1 and w1 = -w0 when rho = -1. *)
Theorem variance_shocks_correlation (rho : R) (m : nat) (g : rng) :
  (1 ≤ m)%nat →
  ∃ w0 aux w1 g',
    draw_shocks rho m g = Ok (w0, w1, g') ∧
    w0 = samples g <$> seq (cursor g) (m - 1) ∧
    aux = samples g <$> seq (cursor g + (m - 1)) (m - 1) ∧
    w1 = zip_with (λ a b, rho * a + sqrt (1 - rho * rho) * b)%R w0 aux ∧
    (rho = 1%R → w1 = w0) ∧
    (rho = (-1)%R → w1 = Ropp <$> w0).
Proof.
  intros Hm. eexists _, _, _, _.
  split; [apply (draw_shocks_ok rho m g Hm)|].
  split; [reflexivity|]. split; [reflexivity|]. split; [reflexivity|].
  split; intros ->.
  - apply correlate_plus_one. by rewrite !length_fmap, !length_seq.
  - apply correlate_minus_one. by rewrite !length_fmap, !length_seq.
Qed.

Lemma variance_shocks_correlation_witness :
  ∃ w0 w1 g',
    draw_shocks 1%R 3 {| samples := INR; cursor := 0 |} = Ok (w0, w1, g') ∧
    w1 = w0.
Proof.
  destruct (variance_shocks_correlation 1%R 3 {| samples := INR; cursor := 0 |})
    as (w0 & aux & w1 & g' & Hd & _ & _ & _ & Hplus & _).
  - lia.
  - exists w0, w1, g'. split; [exact Hd|]. apply Hplus. reflexivity.
Defined.

(** The same two cases on binary64 samples. *)
Example variance_shocks_float :
  (λ r, match r with Ok (w0, w1, _) => Some (w0, w1) | Raise _ => None end)
    (draw_shocks 1%float 4 example_rng)
  = Some ([0.5; -0.25; 1]%float, [0.5; -0.25; 1]%float) ∧
  (λ r, match r with Ok (w0, w1, _) => Some (w0, w1) | Raise _ => None end)
    (draw_shocks (-1)%float 4 example_rng)
  = Some ([0.5; -0.25; 1]%float, [-0.5; 0.25; -1]%float).
Proof. split; vm_compute; reflexivity. Qed.

End Simulator.

(** ** Complex numbers over the reals *)

Module Pricer.
Local Open Scope R_scope.

Record C : Type := mkC { Re : R; Im : R }.

Definition RtoC (x : R) : C := mkC x 0.
Coercion RtoC : R >-> C.

(** [1j] *)
Definition Ci : C := mkC 0 1.

Definition Cadd (z w : C) : C := mkC (Re z + Re w) (Im z + Im w).
Definition Csub (z w : C) : C := mkC (Re z - Re w) (Im z - Im w).
Definition Copp (z : C) : C := mkC (- Re z) (- Im z).
Definition Cmul (z w : C) : C :=
  mkC (Re z * Re w - Im z * Im w) (Re z * Im w + Im z * Re w).
Definition Cnorm2 (z : C) : R := Re z * Re z + Im z * Im z.
Definition Cdiv (z w : C) : C :=
  mkC ((Re z * Re w + Im z * Im w) / Cnorm2 w)
      ((Im z * Re w - Re z * Im w) / Cnorm2 w).
Definition Cmod (z : C) : R := sqrt (Cnorm2 z).

Declare Scope C_scope.
Delimit Scope C_scope with C.
Bind Scope C_scope with C.
Notation "z + w" := (Cadd z w) : C_scope.
Notation "z - w" := (Csub z w) : C_scope.
Notation "- z" := (Copp z) : C_scope.
Notation "z * w" := (Cmul z w) : C_scope.
Notation "z / w" := (Cdiv z w) : C_scope.

(** [z ** 2] *)
Definition Csq (z : C) : C := (z * z)%C.

(** [cmath.exp] *)
Definition Cexp (z : C) : C :=
  mkC (exp (Re z) * cos (Im z)) (exp (Re z) * sin (Im z)).

(** The principal argument, in (-pi, pi]. *)
Definition Carg (z : C) : R :=
  let x := Re z in
  let y := Im z in
  if Rlt_dec 0 x then atan (y / x)
  else if Rlt_dec x 0 then
    (if Rlt_dec y 0 then atan (y / x) - PI else atan (y / x) + PI)
  else if Rlt_dec 0 y then PI / 2
  else if Rlt_dec y 0 then - (PI / 2)
  else 0.

(** [cmath.log], principal branch. *)
Definition Clog (z : C) : C := mkC (ln (Cmod z)) (Carg z).

(** [np.sqrt] on a complex argument: the principal square root. *)
Definition Csqrt (z : C) : C :=
  mkC (sqrt ((Cmod z + Re z) / 2))
      ((if Rlt_dec (Im z) 0 then -1 else 1) * sqrt ((Cmod z - Re z) / 2)).

(** Division of two Python complex numbers: a zero divisor raises. *)
Definition C_eq_dec (z w : C) : {z = w} + {z <> w}.
Proof.
  destruct z as [a b], w as [c d].
  destruct (Req_dec_T a c) as [->|Hac]; [|right; congruence].
  destruct (Req_dec_T b d) as [->|Hbd]; [left; reflexivity|right; congruence].
Defined.

Definition py_cdiv (z w : C) : result C :=
  if C_eq_dec w (RtoC 0) then Raise ZeroDivisionError else Ok (z / w)%C.

(** ** ComputeHeston *)

Record ComputeHeston : Type := {
  kappa : R; theta : R; sigma : R; rho : R; r : R
}.

(** [ComputeHeston.__init__]: the five arguments are stored as given. *)
Definition ComputeHeston_init (kappa theta sigma rho r : R)
    : result ComputeHeston :=
  Ok {| kappa := kappa; theta := theta; sigma := sigma; rho := rho; r := r |}.

Definition characteristic_func (self : ComputeHeston)
    (xi : C) (s0 v0 tau : R) : C :=
  (let ixi := Ci * xi in
   let d := Csqrt (Csq (kappa self - ixi * rho self * sigma self)
                   + RtoC (sigma self * sigma self) * (ixi + Csq xi)) in
   let g := (kappa self - ixi * rho self * sigma self - d)
            / (kappa self - ixi * rho self * sigma self + d) in
   let ee := Cexp (- d * tau) in
   let C_ := ixi * r self * tau
             + RtoC (kappa self * theta self / (sigma self * sigma self))
               * ((kappa self - ixi * rho self * sigma self - d) * tau
                  - RtoC 2 * Clog ((RtoC 1 - g * ee) / (RtoC 1 - g))) in
   let D_ := (kappa self - ixi * rho self * sigma self - d)
             / RtoC (sigma self * sigma self)
             * ((RtoC 1 - ee) / (RtoC 1 - g * ee)) in
   Cexp (C_ + D_ * v0 + ixi * Clog s0))%C.

Definition integ_func (self : ComputeHeston)
    (xi s0 v0 K tau : R) (num : Z) : result R :=
  let ixi := (Ci * xi)%C in
  if decide (num = 1%Z) then
    q ← py_cdiv (characteristic_func self (xi - Ci)%C s0 v0 tau)
                (ixi * characteristic_func self (- Ci)%C s0 v0 tau)%C;
    Ok (Re (q * Cexp (- ixi * Clog K))%C)
  else
    q ← py_cdiv (characteristic_func self xi s0 v0 tau) ixi;
    Ok (Re (q * Cexp (- ixi * Clog K))%C).

(** *** The quadrature routine

    [scipy.integrate.quad(h, a, b)] is a deterministic routine that calls
    [h] at points of its choosing, each choice depending on the values seen
    so far, and then returns its estimate. *)
Inductive quadrature : Type :=
  | Return (estimate : R)
  | Sample (xi : R) (next : R -> quadrature).

(** Running the routine on a callback that may raise. *)
Fixpoint quad_run (q : quadrature) (h : R -> result R) : result R :=
  match q with
  | Return v => Ok v
  | Sample xi next => y ← h xi; quad_run (next y) h
  end.

(** The points at which the callback is called, in order. *)
Fixpoint quad_samples (q : quadrature) (h : R -> result R) : list R :=
  match q with
  | Return _ => []
  | Sample xi next =>
      xi :: match h xi with
            | Ok y => quad_samples (next y) h
            | Raise _ => []
            end
  end.

(** Running it on a function that always returns. *)
Fixpoint quad_value (q : quadrature) (f : R -> R) : R :=
  match q with
  | Return v => v
  | Sample xi next => quad_value (next (f xi)) f
  end.

(** The routine only ever samples strictly inside the interval. *)
Inductive samples_inside (a b : R) : quadrature -> Prop :=
  | inside_Return (v : R) : samples_inside a b (Return v)
  | inside_Sample (xi : R) (next : R -> quadrature) :
      a < xi < b ->
      (forall y, samples_inside a b (next y)) ->
      samples_inside a b (Sample xi next).

(** Two rules for examples: the midpoint rule is open, the trapezoid rule
    samples both ends of the interval. *)
Definition midpoint (a b : R) : quadrature :=
  Sample ((a + b) / 2) (fun y => Return ((b - a) * y)).

Definition trapezoid (a b : R) : quadrature :=
  Sample a (fun ya => Sample b (fun yb => Return ((b - a) * (ya + yb) / 2))).

(** *** Facts about the complex operations *)

Lemma C_eq (z w : C) : Re z = Re w -> Im z = Im w -> z = w.
Proof. destruct z, w; cbn; intros -> ->; reflexivity. Qed.

Ltac c_ring := apply C_eq; cbn; unfold Cnorm2; cbn; try ring.

Lemma Cnorm2_zero (z : C) : Cnorm2 z = 0 -> z = RtoC 0.
Proof.
  unfold Cnorm2. intros Hz. apply C_eq; cbn; nra.
Qed.

Lemma Cnorm2_mul (z w : C) : Cnorm2 (z * w) = Cnorm2 z * Cnorm2 w.
Proof. unfold Cnorm2; cbn; ring. Qed.

Lemma Cmul_nonzero (z w : C) :
  z <> RtoC 0 -> w <> RtoC 0 -> (z * w)%C <> RtoC 0.
Proof.
  intros Hz Hw Hzw.
  assert (Hn : Cnorm2 (z * w) = 0) by (rewrite Hzw; unfold Cnorm2; cbn; ring).
  rewrite Cnorm2_mul in Hn.
  destruct (Rmult_integral _ _ Hn) as [H0|H0];
    apply Cnorm2_zero in H0; contradiction.
Qed.

Lemma Cexp_nonzero (z : C) : Cexp z <> RtoC 0.
Proof.
  intros Hz.
  assert (Hre : exp (Re z) * cos (Im z) = 0) by (apply (f_equal Re) in Hz; exact Hz).
  assert (Him : exp (Re z) * sin (Im z) = 0) by (apply (f_equal Im) in Hz; exact Hz).
  pose proof (exp_pos (Re z)) as He.
  pose proof (sin2_cos2 (Im z)) as Hsc. unfold Rsqr in Hsc.
  assert (Hc : cos (Im z) = 0) by nra.
  assert (Hs : sin (Im z) = 0) by nra.
  rewrite Hc, Hs in Hsc. lra.
Qed.

Lemma Cexp_0 : Cexp (RtoC 0) = RtoC 1.
Proof. apply C_eq; cbn; rewrite exp_0, ?cos_0, ?sin_0; ring. Qed.

Lemma Ci_mul_real (x : R) : (Ci * x)%C = mkC 0 x.
Proof. c_ring. Qed.

Lemma Ci_mul_real_nonzero (x : R) : x <> 0 -> (Ci * x)%C <> RtoC 0.
Proof.
  intros Hx Hz. rewrite Ci_mul_real in Hz.
  apply (f_equal Im) in Hz. cbn in Hz. contradiction.
Qed.

Lemma Cmod_real (x : R) : 0 <= x -> Cmod (RtoC x) = x.
Proof.
  intros Hx. unfold Cmod, Cnorm2. cbn.
  replace (x * x + 0 * 0) with (x * x) by ring.
  apply sqrt_square. exact Hx.
Qed.

(** On a positive real the complex logarithm is the real one. *)
Lemma Clog_pos (x : R) : 0 < x -> Clog (RtoC x) = RtoC (ln x).
Proof.
  intros Hx. unfold Clog. rewrite Cmod_real by lra.
  apply C_eq; cbn; [reflexivity|].
  unfold Carg. cbn. destruct (Rlt_dec 0 x) as [_|Hn]; [|contradiction].
  unfold Rdiv. rewrite Rmult_0_l. apply atan_0.
Qed.

(** On the square of a non-negative real the principal root is that real. *)
Lemma Csqrt_square (k : R) : 0 <= k -> Csqrt (RtoC (k * k)) = RtoC k.
Proof.
  intros Hk. unfold Csqrt.
  rewrite Cmod_real by nra. cbn.
  destruct (Rlt_dec 0 0) as [H0|_]; [lra|].
  apply C_eq; cbn.
  - replace ((k * k + k * k) / 2) with (k * k) by field.
    apply sqrt_square. exact Hk.
  - replace ((k * k - k * k) / 2) with 0 by field.
    rewrite sqrt_0. ring.
Qed.

Lemma py_cdiv_nonzero (z w : C) : w <> RtoC 0 -> py_cdiv z w = Ok (z / w)%C.
Proof.
  intros Hw. unfold py_cdiv. destruct (C_eq_dec w (RtoC 0)); [contradiction|reflexivity].
Qed.

Lemma py_cdiv_zero (z : C) : py_cdiv z (RtoC 0) = Raise ZeroDivisionError.
Proof.
  unfold py_cdiv. destruct (C_eq_dec (RtoC 0) (RtoC 0)); [reflexivity|contradiction].
Qed.

(** *** The integrand, in the words of the pricing formula

    [which = 1]: Re[ CF(xi - i) / (i xi CF(-i)) exp(-i xi ln K) ];
    [which = 2]: Re[ CF(xi) / (i xi) exp(-i xi ln K) ];
    with the real logarithm of the strike and total division. *)
Definition integrand (self : ComputeHeston)
    (xi s0 v0 K tau : R) (which : Z) : R :=
  if decide (which = 1%Z) then
    Re (characteristic_func self (xi - Ci)%C s0 v0 tau
        / (Ci * xi * characteristic_func self (- Ci)%C s0 v0 tau)
        * Cexp (- (Ci * xi) * RtoC (ln K)))%C
  else
    Re (characteristic_func self xi s0 v0 tau / (Ci * xi)
        * Cexp (- (Ci * xi) * RtoC (ln K)))%C.

(** Away from [xi = 0] no division of [integ_func] has a zero divisor. *)
Lemma integ_func_returns (self : ComputeHeston) (xi s0 v0 K tau : R) (num : Z) :
  xi <> 0 ->
  integ_func self xi s0 v0 K tau num =
    Ok (if decide (num = 1%Z) then
          Re (characteristic_func self (xi - Ci)%C s0 v0 tau
              / (Ci * xi * characteristic_func self (- Ci)%C s0 v0 tau)
              * Cexp (- (Ci * xi) * Clog K))%C
        else
          Re (characteristic_func self xi s0 v0 tau / (Ci * xi)
              * Cexp (- (Ci * xi) * Clog K))%C).
Proof.
  intros Hxi. unfold integ_func.
  destruct (decide (num = 1%Z)) as [_|_].
  - rewrite py_cdiv_nonzero; [reflexivity|].
    apply Cmul_nonzero; [by apply Ci_mul_real_nonzero|].
    unfold characteristic_func. apply Cexp_nonzero.
  - rewrite py_cdiv_nonzero; [reflexivity|].
    by apply Ci_mul_real_nonzero.
Qed.

Lemma integ_func_integrand (self : ComputeHeston) (xi s0 v0 K tau : R) (num : Z) :
  xi <> 0 -> 0 < K ->
  integ_func self xi s0 v0 K tau num = Ok (integrand self xi s0 v0 K tau num).
Proof.
  intros Hxi HK. rewrite integ_func_returns by exact Hxi.
  unfold integrand. rewrite (Clog_pos K HK). reflexivity.
Qed.

(** At [xi = 0] both divisions of [integ_func] are divisions by zero. *)
Lemma integ_func_at_zero (self : ComputeHeston) (s0 v0 K tau : R) (num : Z) :
  integ_func self 0 s0 v0 K tau num = Raise ZeroDivisionError.
Proof.
  unfold integ_func.
  assert (H0 : (Ci * 0)%C = RtoC 0) by c_ring.
  assert (H1 : forall z, (Ci * 0 * z)%C = RtoC 0) by (intros z; c_ring).
  destruct (decide (num = 1%Z)) as [_|_].
  - rewrite H1, py_cdiv_zero. reflexivity.
  - rewrite H0, py_cdiv_zero. reflexivity.
Qed.

(** *** Running a quadrature routine *)

Lemma quad_run_inside (a b : R) (q : quadrature) (h : R -> result R) (f : R -> R) :
  samples_inside a b q ->
  (forall xi, a < xi < b -> h xi = Ok (f xi)) ->
  quad_run q h = Ok (quad_value q f).
Proof.
  intros Hq Hh. induction Hq as [v|xi next Hxi _ IH]; cbn.
  - reflexivity.
  - rewrite (Hh xi Hxi). rewrite bind_Ok. apply IH.
Qed.

Lemma quad_samples_inside (a b : R) (q : quadrature) (h : R -> result R) :
  samples_inside a b q ->
  Forall (fun xi => a < xi < b) (quad_samples q h).
Proof.
  intros Hq. induction Hq as [v|xi next Hxi Hnext IH]; cbn.
  - constructor.
  - constructor; [exact Hxi|].
    destruct (h xi) as [y|e]; [apply IH|constructor].
Qed.

Lemma midpoint_inside (a b : R) : a < b -> samples_inside a b (midpoint a b).
Proof.
  intros Hab. unfold midpoint. constructor; [lra|].
  intros y. constructor.
Qed.

(** *** The characteristic function at frequency zero *)

(** The domain of the model parameters. *)
Definition valid_parameters (self : ComputeHeston) : Prop :=
  0 < kappa self /\ 0 < theta self /\ 0 < sigma self /\
  -1 <= rho self <= 1.

(** The benchmark parameters of the pricing scenario. *)
Definition benchmark : ComputeHeston :=
  {| kappa := 2; theta := 0.04; sigma := 0.3; rho := -0.5; r := 0.01 |}.

Lemma benchmark_valid : valid_parameters benchmark.
Proof. unfold valid_parameters, benchmark; cbn. lra. Qed.

Lemma characteristic_func_zero (self : ComputeHeston) (s0 v0 tau : R) :
  0 <= kappa self ->
  characteristic_func self (RtoC 0) s0 v0 tau = RtoC 1.
Proof.
  intros Hk. unfold characteristic_func.
  set (k := kappa self). set (sg := sigma self). set (rh := rho self).
  assert (Ha : (k - Ci * 0 * rh * sg)%C = RtoC k) by c_ring.
  rewrite Ha.
  assert (Harg : (Csq k + RtoC (sg * sg) * (Ci * 0 + Csq 0))%C = RtoC (k * k))
    by c_ring.
  rewrite Harg, (Csqrt_square k Hk).
  assert (Hz : (RtoC k - RtoC k)%C = RtoC 0) by c_ring.
  rewrite Hz.
  assert (Hg : forall w : C, (RtoC 0 / w)%C = RtoC 0)
    by (intros w; apply C_eq; cbn; unfold Rdiv; ring).
  rewrite !Hg.
  assert (H1 : forall w : C, (RtoC 1 - RtoC 0 * w)%C = RtoC 1)
    by (intros w; c_ring).
  rewrite H1.
  assert (H10 : (RtoC 1 - RtoC 0)%C = RtoC 1) by c_ring.
  rewrite H10.
  assert (H11 : (RtoC 1 / RtoC 1)%C = RtoC 1)
    by (apply C_eq; cbn; unfold Cnorm2; cbn; field).
  rewrite H11, (Clog_pos 1) by lra. rewrite ln_1.
  set (ee := Cexp (- RtoC k * tau)%C). set (ls := Clog s0).
  set (c := RtoC (k * theta self / (sg * sg))).
  assert (Hsum : (Ci * 0 * r self * tau
                  + c * (RtoC 0 * tau - RtoC 2 * RtoC 0)
                  + RtoC 0 * ((RtoC 1 - ee) / RtoC 1) * v0
                  + Ci * 0 * ls)%C = RtoC 0) by c_ring.
  rewrite Hsum. apply Cexp_0.
Qed.

(** C3. For valid model parameters (kappa, theta, sigma positive, rho in
    [-1,1], any r), positive spot and positive maturity, and any variance,
    the characteristic function evaluated at frequency 0 is 1. *)
Theorem characteristic_func_at_zero_is_one
    (self : ComputeHeston) (s0 v0 tau : R) :
  valid_parameters self -> 0 < s0 -> 0 < tau ->
  characteristic_func self (RtoC 0) s0 v0 tau = RtoC 1.
Proof.
  intros (Hk & _) _ _. apply characteristic_func_zero. lra.
Qed.

Lemma characteristic_func_at_zero_is_one_witness :
  characteristic_func benchmark (RtoC 0) 100 0.04 1 = RtoC 1.
Proof.
  apply (characteristic_func_at_zero_is_one benchmark 100 0.04 1).
  - unfold valid_parameters, benchmark; cbn; lra.
  - lra.
  - lra.
Defined.

Section CallPrice.
(** [quad], as the strategy it follows on given bounds. *)
Variable quad : R -> R -> quadrature.

(** The bounds [call_price] hands to [quad]. *)
Definition lower_bound : R := 0.
Definition cutoff : R := 500.

(** The lambda [h] of [call_price]. *)
Definition call_price_h (self : ComputeHeston) (s0 v0 K tau : R)
    (xi : R) : result R :=
  i1 ← integ_func self xi s0 v0 K tau 1;
  i2 ← integ_func self xi s0 v0 K tau 2;
  Ok (s0 * i1 - K * exp (- r self * tau) * i2).

Definition call_price (self : ComputeHeston) (s0 v0 K tau : R) : result R :=
  q ← quad_run (quad lower_bound cutoff) (call_price_h self s0 v0 K tau);
  Ok (0.5 * (s0 - K * exp (- r self * tau)) + 1 / PI * q).

(** On a routine that samples strictly inside its interval, [call_price]
    returns, and its value is the estimate the routine forms from the
    integrand of the pricing formula. *)
Lemma call_price_h_integrand (self : ComputeHeston) (s0 v0 K tau xi : R) :
  xi <> 0 -> 0 < K ->
  call_price_h self s0 v0 K tau xi =
    Ok (s0 * integrand self xi s0 v0 K tau 1
        - K * exp (- r self * tau) * integrand self xi s0 v0 K tau 2).
Proof.
  intros Hxi HK. unfold call_price_h.
  rewrite !integ_func_integrand by assumption. reflexivity.
Qed.

Lemma call_price_h_returns (self : ComputeHeston) (s0 v0 K tau xi : R) :
  xi <> 0 -> exists y, call_price_h self s0 v0 K tau xi = Ok y.
Proof.
  intros Hxi. unfold call_price_h.
  rewrite !integ_func_returns by assumption. cbn. eauto.
Qed.



End CallPrice.




End Pricer.

(** ** Finite-difference Greeks and the table wrappers *)

Module Tables.
Import Pricer.
Local Open Scope R_scope.
Local Open Scope string_scope.
Local Open Scope list_scope.

(** Anything with a [call_price] method can be handed over as [pricer]. *)
Class HasCallPrice (P : Type) : Type :=
  call_price_of : P -> R -> R -> R -> R -> result R.

(** A [ComputeHeston] object, with the quadrature routine it runs on. *)
Definition heston_pricer (quad : R -> R -> quadrature)
    : HasCallPrice ComputeHeston :=
  call_price quad.

(** The last division of the two Greeks: with a zero divisor no number
    comes back (ZeroDivisionError on plain floats). *)
Definition fd_div (x y : R) : result R :=
  if Req_dec_T y 0 then Raise ZeroDivisionError else Ok (x / y).

Section Greeks.
Context {P : Type} `{HasCallPrice P}.

Definition calc_Heston_delta_by_FD (s0 v0 k tau : R) (pricer : P) : result R :=
  let ds := s0 * 0.001 in
  p_plus ← call_price_of pricer (s0 + ds) v0 k tau;
  p_minus ← call_price_of pricer (s0 - ds) v0 k tau;
  fd_div (p_plus - p_minus) (2 * ds).

Definition calc_Heston_vega_by_FD (s0 v0 k tau : R) (pricer : P) : result R :=
  let dv := v0 * 0.001 in
  p_plus ← call_price_of pricer s0 (v0 + dv) k tau;
  p_minus ← call_price_of pricer s0 (v0 - dv) k tau;
  fd_div (p_plus - p_minus) (2 * dv).

(** The symmetric difference quotient of a price function, as the formulas
    of the two sensitivities write it. *)
Definition central_difference (price : R -> result R) (x h : R) : result R :=
  up ← price (x + h);
  down ← price (x - h);
  Ok ((up - down) / (2 * h)).

Lemma fd_div_nonzero (x y : R) : y <> 0 -> fd_div x y = Ok (x / y).
Proof.
  intros Hy. unfold fd_div. destruct (Req_dec_T y 0); [contradiction|reflexivity].
Qed.

Lemma central_difference_fd (price : R -> result R) (x h : R) :
  h <> 0 ->
  (up ← price (x + h); down ← price (x - h); fd_div (up - down) (2 * h))
  = central_difference price x h.
Proof.
  intros Hh. unfold central_difference.
  destruct (price (x + h)) as [up|e]; [|reflexivity]. rewrite !bind_Ok.
  destruct (price (x - h)) as [down|e]; [|reflexivity]. rewrite !bind_Ok.
  apply fd_div_nonzero. lra.
Qed.

(** C10. For s0 > 0, v0 > 0, K > 0, tau > 0 and any pricer, the
    finite-difference delta is the symmetric difference quotient of
    [call_price] in the spot with bump ds = s0 * 0.001, and the
    finite-difference sensitivity to the variance state is the symmetric
    difference quotient in the variance with bump dv = v0 * 0.001. *)
Theorem finite_difference_greeks (s0 v0 K tau : R) (pricer : P) :
  0 < s0 -> 0 < v0 -> 0 < K -> 0 < tau ->
  calc_Heston_delta_by_FD s0 v0 K tau pricer
    = central_difference (fun s => call_price_of pricer s v0 K tau)
                         s0 (s0 * 0.001)
  /\
  calc_Heston_vega_by_FD s0 v0 K tau pricer
    = central_difference (fun v => call_price_of pricer s0 v K tau)
                         v0 (v0 * 0.001).
Proof.
  intros Hs Hv _ _. split.
  - unfold calc_Heston_delta_by_FD.
    apply (central_difference_fd (fun s => call_price_of pricer s v0 K tau)).
    lra.
  - unfold calc_Heston_vega_by_FD.
    apply (central_difference_fd (fun v => call_price_of pricer s0 v K tau)).
    lra.
Qed.

End Greeks.

Lemma finite_difference_greeks_witness :
  calc_Heston_delta_by_FD (H := heston_pricer midpoint) 100 0.04 100 1 benchmark
    = central_difference
        (fun s => call_price midpoint benchmark s 0.04 100 1) 100 (100 * 0.001)
  /\
  calc_Heston_vega_by_FD (H := heston_pricer midpoint) 100 0.04 100 1 benchmark
    = central_difference
        (fun v => call_price midpoint benchmark 100 v 100 1) 0.04 (0.04 * 0.001).
Proof.
  apply (finite_difference_greeks (H := heston_pricer midpoint)
           100 0.04 100 1 benchmark); lra.
Defined.

(** *** Tables

    A frame is its lines in order, each with its index label and its cells
    by column name. [df.iterrows()] hands out the lines as they were when
    the loop started; [df.loc[ix, c] = x] stores into every line labelled
    [ix]. *)
Section Wrappers.
Context {P : Type} `{HasCallPrice P}.
Context {L : Type} `{EqDecision L}.

Definition DataFrame : Type := list (L * gmap string R).

(** [row[c]] *)
Definition row_get (row : gmap string R) (c : string) : result R :=
  match row !! c with
  | Some x => Ok x
  | None => Raise KeyError
  end.

(** [df.loc[ix, c] = x] *)
Definition loc_set (df : DataFrame) (ix : L) (c : string) (x : R) : DataFrame :=
  (λ line, if decide (line.1 = ix) then (line.1, <[c := x]> line.2) else line)
    <$> df.

(** The cells of column [c] in the lines labelled [ix]. *)
Definition loc_get (df : DataFrame) (ix : L) (c : string) : list (option R) :=
  (λ line, line.2 !! c) <$> filter (λ line, line.1 = ix) df.

Definition near_expiry : R := 0.0039.

Definition hs_price_body (pricer : P) (line : L * gmap string R)
    (df : DataFrame) : result DataFrame :=
  let '(ix, row) := line in
  s ← row_get row "S0";
  var ← row_get row "Var0";
  tau ← row_get row "tau0";
  k ← row_get row "K";
  if Rlt_dec tau near_expiry then
    Ok (loc_set df ix "V0" (Rmax (s - k) 0))
  else
    price ← call_price_of pricer s var k tau;
    Ok (loc_set df ix "V0" price).

Definition hs_price_wrapper (df : DataFrame) (pricer : P) : result DataFrame :=
  foldM (hs_price_body pricer) df df.

(** Reading the local variable [price], which may not be bound yet. *)
Definition read_local (price : option R) : result R :=
  match price with
  | Some p => Ok p
  | None => Raise UnboundLocalError
  end.

(** The loop body of [hs_price_1M_ATM_wrapper]; the state is the frame and
    the local variable [price]. *)
Definition atm_body (pricer : P) (s_name var_name tau_name v_name : string)
    (line : L * gmap string R) (st : DataFrame * option R)
    : result (DataFrame * option R) :=
  let '(ix, row) := line in
  let '(df, price) := st in
  s ← row_get row s_name;
  var ← row_get row var_name;
  k ← row_get row "K";
  tau ← row_get row tau_name;
  '(df, price) ←
    (if Rlt_dec tau near_expiry then
       Ok (loc_set df ix v_name (Rmax (s - k) 0), price)
     else
       p ← call_price_of pricer s var k tau;
       Ok (df, Some p));
  p ← read_local price;
  Ok (loc_set df ix v_name p, price).

Definition hs_price_1M_ATM_wrapper (df : DataFrame) (pricer : P)
    (s_name var_name tau_name v_name : string) : result DataFrame :=
  st ← foldM (atm_body pricer s_name var_name tau_name v_name) df (df, None);
  Ok st.1.

(** *** Stores and reads by label *)

Lemma foldM_app {A B : Type} (body : B → A → result A) (l1 l2 : list B) (a : A) :
  foldM body (l1 ++ l2) a = (a' ← foldM body l1 a; foldM body l2 a').
Proof.
  revert a. induction l1 as [|b l1 IH]; intros a; cbn; [done|].
  destruct (body b a) as [a'|e]; cbn; [apply IH|done].
Qed.

Lemma loc_set_labels (df : DataFrame) (ix : L) (c : string) (x : R) :
  (loc_set df ix c x).*1 = df.*1.
Proof.
  unfold loc_set. induction df as [|[l row] df IH]; cbn; [done|].
  rewrite IH. by destruct (decide (l = ix)).
Qed.

Lemma loc_get_loc_set (df : DataFrame) (ix : L) (c : string) (x : R) :
  loc_get (loc_set df ix c x) ix c
  = replicate (length (filter (λ line, line.1 = ix) df)) (Some x).
Proof.
  unfold loc_get, loc_set. induction df as [|[l row] df IH]; cbn; [done|].
  repeat case_decide; simplify_eq/=; rewrite ?lookup_insert_eq;
    first [done | by f_equal].
Qed.

Lemma loc_get_loc_set_other (df : DataFrame) (ix ix' : L) (c c' : string) (x : R) :
  ix' ≠ ix → loc_get (loc_set df ix' c x) ix c' = loc_get df ix c'.
Proof.
  intros Hne. unfold loc_get, loc_set.
  induction df as [|[l row] df IH]; cbn; [done|].
  repeat case_decide; simplify_eq/=; first [done | by f_equal].
Qed.

Lemma loc_set_count (df : DataFrame) (ix ix' : L) (c : string) (x : R) :
  length (filter (λ line, line.1 = ix) (loc_set df ix' c x))
  = length (filter (λ line, line.1 = ix) df).
Proof.
  unfold loc_set. induction df as [|[l row] df IH]; cbn; [done|].
  repeat case_decide; simplify_eq/=; first [done | by f_equal].
Qed.

Lemma labelled_lines (df : DataFrame) (ix : L) :
  ix ∈ df.*1 → (0 < length (filter (λ line, line.1 = ix) df))%nat.
Proof.
  induction df as [|[l row] df IH]; cbn; [by intros ?%elem_of_nil|].
  intros [->|Hin]%elem_of_cons; case_decide; simplify_eq/=; try lia.
  by apply IH.
Qed.

(** A line read by a wrapper: its spot, variance, strike and maturity. *)
Definition reads (row : gmap string R) (s_name var_name tau_name : string)
    (s var k tau : R) : Prop :=
  row_get row s_name = Ok s ∧ row_get row var_name = Ok var ∧
  row_get row "K" = Ok k ∧ row_get row tau_name = Ok tau.

(** *** hs_price_wrapper *)

Lemma hs_price_body_labels (pricer : P) (line : L * gmap string R)
    (df df' : DataFrame) :
  hs_price_body pricer line df = Ok df' →
  df'.*1 = df.*1 ∧
  ∀ ix c, ix ≠ line.1 → loc_get df' ix c = loc_get df ix c.
Proof.
  destruct line as [l row]. unfold hs_price_body.
  destruct (row_get row "S0") as [s|]; [|done]. rewrite bind_Ok.
  destruct (row_get row "Var0") as [var|]; [|done]. rewrite bind_Ok.
  destruct (row_get row "tau0") as [tau|]; [|done]. rewrite bind_Ok.
  destruct (row_get row "K") as [k|]; [|done]. rewrite bind_Ok.
  destruct (Rlt_dec tau near_expiry) as [_|_].
  - intros [= <-]. split; [apply loc_set_labels|].
    intros ix c Hne. apply loc_get_loc_set_other. cbn in Hne. done.
  - destruct (call_price_of pricer s var k tau) as [price|]; [|done].
    rewrite bind_Ok. intros [= <-]. split; [apply loc_set_labels|].
    intros ix c Hne. apply loc_get_loc_set_other. cbn in Hne. done.
Qed.

Lemma hs_price_fold_keeps (pricer : P) (rows : list (L * gmap string R))
    (df df' : DataFrame) (ix : L) (c : string) :
  foldM (hs_price_body pricer) rows df = Ok df' →
  ix ∉ rows.*1 →
  df'.*1 = df.*1 ∧ loc_get df' ix c = loc_get df ix c.
Proof.
  revert df. induction rows as [|line rows IH]; intros df; cbn.
  - by intros [= <-] _.
  - destruct (hs_price_body pricer line df) as [df1|] eqn:Hb; [|done].
    rewrite bind_Ok. intros Hf Hnot.
    apply not_elem_of_cons in Hnot as [Hne Hnot].
    destruct (hs_price_body_labels _ _ _ _ Hb) as [Hl Hk].
    destruct (IH df1 Hf Hnot) as [Hl' Hk'].
    split; [congruence|]. rewrite Hk'. by apply Hk.
Qed.

Lemma hs_price_fold_labels (pricer : P) (rows : list (L * gmap string R))
    (df df' : DataFrame) :
  foldM (hs_price_body pricer) rows df = Ok df' → df'.*1 = df.*1.
Proof.
  revert df. induction rows as [|line rows IH]; intros df; cbn.
  - by intros [= <-].
  - destruct (hs_price_body pricer line df) as [df1|] eqn:Hb; [|done].
    rewrite bind_Ok. intros Hf.
    destruct (hs_price_body_labels _ _ _ _ Hb) as [Hl _].
    rewrite (IH df1 Hf). exact Hl.
Qed.

Lemma hs_price_body_near (pricer : P) (ix : L) (row : gmap string R)
    (df : DataFrame) (s var k tau : R) :
  reads row "S0" "Var0" "tau0" s var k tau →
  tau < near_expiry →
  hs_price_body pricer (ix, row) df = Ok (loc_set df ix "V0" (Rmax (s - k) 0)).
Proof.
  intros (Hs & Hv & Hk & Ht) Hnear. unfold hs_price_body.
  rewrite Hs, Hv, Ht, Hk. rewrite !bind_Ok.
  destruct (Rlt_dec tau near_expiry) as [_|Hn]; [done|contradiction].
Qed.

(** [hs_price_wrapper] does apply the near-expiry policy: the cell of a
    line with tau below the threshold ends up holding max(s - k, 0),
    whatever the pricer. *)
Lemma hs_price_wrapper_near_expiry (pricer : P)
    (pre post : list (L * gmap string R)) (ix : L) (row : gmap string R)
    (s var k tau : R) (df' : DataFrame) :
  reads row "S0" "Var0" "tau0" s var k tau →
  tau < near_expiry →
  ix ∉ post.*1 →
  hs_price_wrapper (pre ++ (ix, row) :: post) pricer = Ok df' →
  ∃ n, (0 < n)%nat ∧ loc_get df' ix "V0" = replicate n (Some (Rmax (s - k) 0)).
Proof.
  intros Hreads Hnear Hpost. unfold hs_price_wrapper.
  rewrite foldM_app.
  destruct (foldM (hs_price_body pricer) pre _) as [df1|] eqn:Hpre; [|done].
  rewrite bind_Ok. cbn [foldM].
  rewrite (hs_price_body_near _ _ _ _ _ _ _ _ Hreads Hnear), bind_Ok.
  intros Hf.
  destruct (hs_price_fold_keeps _ _ _ _ ix "V0" Hf Hpost) as [_ Hkeep].
  rewrite Hkeep, loc_get_loc_set.
  eexists. split; [|reflexivity].
  apply labelled_lines.
  rewrite (hs_price_fold_labels _ _ _ _ Hpre).
  rewrite fmap_app. apply elem_of_app. right. cbn. apply elem_of_cons. by left.
Qed.

(** *** hs_price_1M_ATM_wrapper *)

Section ATM.
Variable pricer : P.
Variables s_name var_name tau_name v_name : string.

Local Abbreviation body := (atm_body pricer s_name var_name tau_name v_name).

(** On a near-expiry line the intrinsic value is stored, and then the
    unconditional last store reads [price] and overwrites it. *)
Lemma atm_body_near (ix : L) (row : gmap string R) (df : DataFrame)
    (price : option R) (s var k tau : R) :
  reads row s_name var_name tau_name s var k tau →
  tau < near_expiry →
  body (ix, row) (df, price) =
    (p ← read_local price;
     Ok (loc_set (loc_set df ix v_name (Rmax (s - k) 0)) ix v_name p, price)).
Proof.
  intros (Hs & Hv & Hk & Ht) Hnear. unfold atm_body.
  rewrite Hs, Hv, Hk, Ht. rewrite !bind_Ok.
  destruct (Rlt_dec tau near_expiry) as [_|Hn]; [done|contradiction].
Qed.

(** What a successful pass through the body has done. *)
Lemma atm_body_inv (line : L * gmap string R) (df df' : DataFrame)
    (price price' : option R) :
  body line (df, price) = Ok (df', price') →
  ∃ s var k tau p,
    reads line.2 s_name var_name tau_name s var k tau ∧
    price' = Some p ∧
    ((tau < near_expiry ∧ price = Some p ∧
      df' = loc_set (loc_set df line.1 v_name (Rmax (s - k) 0)) line.1 v_name p)
     ∨
     (¬ tau < near_expiry ∧ call_price_of pricer s var k tau = Ok p ∧
      df' = loc_set df line.1 v_name p)).
Proof.
  destruct line as [ix row]. unfold atm_body, reads. cbn [fst snd].
  destruct (row_get row s_name) as [s|]; [|done]. rewrite bind_Ok.
  destruct (row_get row var_name) as [var|]; [|done]. rewrite bind_Ok.
  destruct (row_get row "K") as [k|]; [|done]. rewrite bind_Ok.
  destruct (row_get row tau_name) as [tau|]; [|done]. rewrite bind_Ok.
  destruct (Rlt_dec tau near_expiry) as [Hnear|Hfar].
  - rewrite bind_Ok. destruct price as [p|]; [|done]. cbn.
    intros [= <- <-]. exists s, var, k, tau, p. repeat split; try done.
    left. done.
  - destruct (call_price_of pricer s var k tau) as [p|] eqn:Hp; [|done].
    cbn. intros [= <- <-]. exists s, var, k, tau, p. repeat split; try done.
    right. done.
Qed.

(** The value of [price], once bound, is the price computed on a line seen
    before. *)
Definition priced_at (seen : list (L * gmap string R)) (p : R) : Prop :=
  ∃ ix row s var k tau,
    (ix, row) ∈ seen ∧
    reads row s_name var_name tau_name s var k tau ∧
    ¬ tau < near_expiry ∧
    call_price_of pricer s var k tau = Ok p.

Lemma priced_at_app (seen more : list (L * gmap string R)) (p : R) :
  priced_at seen p → priced_at (seen ++ more) p.
Proof.
  intros (ix & row & s & var & k & tau & Hin & Hrest).
  exists ix, row, s, var, k, tau. split; [|done].
  apply elem_of_app. by left.
Qed.

Lemma atm_fold_price (rows seen : list (L * gmap string R))
    (df df' : DataFrame) (price price' : option R) :
  foldM body rows (df, price) = Ok (df', price') →
  (∀ p, price = Some p → priced_at seen p) →
  (∀ p, price' = Some p → priced_at (seen ++ rows) p) ∧ df'.*1 = df.*1.
Proof.
  revert seen df price. induction rows as [|line rows IH];
    intros seen df price; cbn.
  - intros [= <- <-] Hinv. rewrite app_nil_r. done.
  - destruct (body line (df, price)) as [[df1 price1]|] eqn:Hb; [|done].
    rewrite bind_Ok. intros Hf Hinv.
    destruct (atm_body_inv _ _ _ _ _ Hb)
      as (s & var & k & tau & p & Hreads & -> & Hcase).
    destruct (IH (seen ++ [line]) df1 (Some p) Hf) as [Hprice Hlabels].
    + intros p' [= <-]. destruct Hcase as [(_ & -> & _)|(Hfar & Hp & _)].
      * apply priced_at_app. by apply Hinv.
      * exists line.1, line.2, s, var, k, tau.
        split; [|done]. apply elem_of_app. right.
        destruct line. cbn. apply list_elem_of_singleton. done.
    + rewrite <- app_assoc in Hprice. split; [exact Hprice|].
      rewrite Hlabels.
      destruct Hcase as [(_ & _ & ->)|(_ & _ & ->)];
        by rewrite ?loc_set_labels.
Qed.

Lemma atm_fold_keeps (rows : list (L * gmap string R))
    (df df' : DataFrame) (price price' : option R) (ix : L) (c : string) :
  foldM body rows (df, price) = Ok (df', price') →
  ix ∉ rows.*1 →
  loc_get df' ix c = loc_get df ix c.
Proof.
  revert df price. induction rows as [|line rows IH]; intros df price; cbn.
  - by intros [= <- <-] _.
  - destruct (body line (df, price)) as [[df1 price1]|] eqn:Hb; [|done].
    rewrite bind_Ok. intros Hf Hnot.
    apply not_elem_of_cons in Hnot as [Hne Hnot].
    rewrite (IH df1 price1 Hf Hnot).
    destruct (atm_body_inv _ _ _ _ _ Hb)
      as (s & var & k & tau & p & _ & _ & Hcase).
    destruct Hcase as [(_ & _ & ->)|(_ & _ & ->)];
      by rewrite !loc_get_loc_set_other.
Qed.


End ATM.

End Wrappers.

(** *** A quote table to run the wrappers on *)

(** A call one tenth of a trading day from expiry, ten in the money. *)
Definition near_row : gmap string R :=
  <["S0" := 100]> (<["Var0" := 0.04]> (<["tau0" := 0.001]> (<["K" := 90]> ∅))).

Definition near_table : list (nat * gmap string R) := [(0%nat, near_row)].

Lemma near_row_reads : reads near_row "S0" "Var0" "tau0" 100 0.04 90 0.001.
Proof. unfold reads, row_get, near_row. by simplify_map_eq. Qed.

Lemma near_row_tau : 0.001 < near_expiry.
Proof. unfold near_expiry. lra. Qed.

Lemma near_row_intrinsic : Rmax (100 - 90) 0 = 10.
Proof. unfold Rmax. destruct (Rle_dec (100 - 90) 0); lra. Qed.


(** C4 fails on the code for [hs_price_1M_ATM_wrapper]. On the one-line
    table above (tau = 0.001 < 0.0039, s - K = 10) [hs_price_wrapper]
    stores the intrinsic value 10, while [hs_price_1M_ATM_wrapper] stores
    it and then fails in its unconditional last store, [price] being
    unbound. *)
Theorem near_expiry_policy_broken_in_atm_wrapper :
  (∃ df', hs_price_wrapper (H := heston_pricer midpoint) near_table benchmark
            = Ok df' ∧
          loc_get df' 0%nat "V0" = [Some 10]) ∧
  hs_price_1M_ATM_wrapper (H := heston_pricer midpoint) near_table benchmark
    "S0" "Var0" "tau0" "V0" = Raise UnboundLocalError.
Proof.
  split.
  - eexists. split.
    + unfold hs_price_wrapper, near_table. cbn [foldM].
      rewrite (hs_price_body_near _ _ _ _ _ _ _ _ near_row_reads near_row_tau).
      reflexivity.
    + rewrite loc_get_loc_set, near_row_intrinsic. reflexivity.
  - unfold hs_price_1M_ATM_wrapper, near_table. cbn [foldM].
    rewrite (atm_body_near _ _ _ _ _ _ _ _ _ _ _ _ _ near_row_reads near_row_tau).
    reflexivity.
Qed.

End Tables.

(** ** Parameter domains *)

Module Validation.
Import Simulator.

(** Monday and Tuesday, with a correlation outside [-1, 1] and a negative
    volatility of variance. *)
Definition out_of_domain_params : params :=
  {| mu := 0.0625%float; kappa := 2%float; theta := 0.03125%float;
     sigma := (-1)%float; rho := 2%float;
     s0 := 100%float; v0 := 0.03125%float;
     start_date := 0%Z; end_date := 1%Z |}.




End Validation.

(** ** More on the table wrappers *)

Module TableFacts.
Import Pricer Tables.
Local Open Scope R_scope.
Local Open Scope string_scope.
Local Open Scope list_scope.

Section Frames.
Context {P : Type} `{HasCallPrice P}.
Context {L : Type} `{EqDecision L}.

(** [calc_Heston_delta_vega_wrapper]: the body of its loop and the loop. *)
Definition delta_vega_body (pricer : P)
    (s_name k_name var_name tau_name delta_name vega_name : string)
    (line : L * gmap string R) (df : DataFrame) : result DataFrame :=
  let '(key, row) := line in
  s0 ← row_get row s_name;
  v0 ← row_get row var_name;
  k ← row_get row k_name;
  tau ← row_get row tau_name;
  d ← calc_Heston_delta_by_FD s0 v0 k tau pricer;
  let df := loc_set df key delta_name d in
  vega ← calc_Heston_vega_by_FD s0 v0 k tau pricer;
  Ok (loc_set df key vega_name vega).

Definition calc_Heston_delta_vega_wrapper (df : DataFrame) (pricer : P)
    (s_name k_name var_name tau_name delta_name vega_name : string)
    : result DataFrame :=
  foldM (delta_vega_body pricer s_name k_name var_name tau_name
                         delta_name vega_name) df df.

(** A store into one column leaves the other columns as they are. *)
Lemma loc_get_loc_set_column (df : DataFrame) (ix ix' : L) (c c' : string) (x : R) :
  c' ≠ c → loc_get (loc_set df ix c x) ix' c' = loc_get df ix' c'.
Proof.
  intros Hc. unfold loc_get, loc_set.
  induction df as [|[l row] df IH]; cbn; [done|].
  repeat case_decide; simplify_eq/=; rewrite ?lookup_insert_ne by done;
    first [done | by f_equal].
Qed.

(** What a frame shares with the frame it was computed from: the labels,
    line by line, and every cell outside the columns [written]. *)
Definition same_but (written : list string) (df df' : DataFrame) : Prop :=
  df'.*1 = df.*1 ∧
  ∀ (ix : L) (c : string), c ∉ written → loc_get df' ix c = loc_get df ix c.

Lemma same_but_refl (written : list string) (df : DataFrame) :
  same_but written df df.
Proof. by split. Qed.

Lemma same_but_trans (written : list string) (df1 df2 df3 : DataFrame) :
  same_but written df1 df2 → same_but written df2 df3 →
  same_but written df1 df3.
Proof.
  intros [Hl Hc] [Hl' Hc']. split; [congruence|].
  intros ix c Hw. rewrite Hc', Hc; done.
Qed.

Lemma same_but_loc_set (written : list string) (df : DataFrame) (ix : L)
    (c : string) (x : R) :
  c ∈ written → same_but written df (loc_set df ix c x).
Proof.
  intros Hin. split; [apply loc_set_labels|].
  intros ix' c' Hnot. apply loc_get_loc_set_column. intros ->. done.
Qed.

Lemma foldM_same_but {A : Type} (written : list string)
    (body : A → DataFrame → result DataFrame) (rows : list A)
    (df df' : DataFrame) :
  (∀ a d d', body a d = Ok d' → same_but written d d') →
  foldM body rows df = Ok df' → same_but written df df'.
Proof.
  intros Hbody. revert df. induction rows as [|a rows IH]; intros df; cbn.
  - intros [= <-]. apply same_but_refl.
  - destruct (body a df) as [d1|] eqn:Hb; [|done]. rewrite bind_Ok.
    intros Hf. eapply same_but_trans; [by eapply Hbody|by apply IH].
Qed.

Lemma hs_price_body_same_but (pricer : P) (line : L * gmap string R)
    (df df' : DataFrame) :
  hs_price_body pricer line df = Ok df' → same_but ["V0"] df df'.
Proof.
  destruct line as [ix row]. unfold hs_price_body.
  destruct (row_get row "S0") as [s|]; [|done]. rewrite bind_Ok.
  destruct (row_get row "Var0") as [var|]; [|done]. rewrite bind_Ok.
  destruct (row_get row "tau0") as [tau|]; [|done]. rewrite bind_Ok.
  destruct (row_get row "K") as [k|]; [|done]. rewrite bind_Ok.
  destruct (Rlt_dec tau near_expiry) as [_|_].
  - intros [= <-]. apply same_but_loc_set. set_solver.
  - destruct (call_price_of pricer s var k tau) as [price|]; [|done].
    rewrite bind_Ok. intros [= <-]. apply same_but_loc_set. set_solver.
Qed.

(** X1. When [hs_price_wrapper] returns, the frame has the labels of the
    input, line by line, and every cell outside column 'V0' is as it was. *)
Theorem hs_price_wrapper_keeps_frame (df df' : DataFrame) (pricer : P) :
  hs_price_wrapper df pricer = Ok df' →
  df'.*1 = df.*1 ∧
  ∀ (ix : L) (c : string), c ≠ "V0" → loc_get df' ix c = loc_get df ix c.
Proof.
  intros Hw.
  destruct (foldM_same_but ["V0"] (hs_price_body pricer) df df df') as [Hl Hc].
  - intros a d d'. apply hs_price_body_same_but.
  - exact Hw.
  - split; [exact Hl|]. intros ix c Hne. apply Hc.
    by intros ->%list_elem_of_singleton.
Qed.

Lemma hs_price_body_far (pricer : P) (ix : L) (row : gmap string R)
    (df : DataFrame) (s var k tau : R) :
  reads row "S0" "Var0" "tau0" s var k tau →
  ¬ tau < near_expiry →
  hs_price_body pricer (ix, row) df =
    (price ← call_price_of pricer s var k tau; Ok (loc_set df ix "V0" price)).
Proof.
  intros (Hs & Hv & Hk & Ht) Hfar. unfold hs_price_body.
  rewrite Hs, Hv, Ht, Hk. rewrite !bind_Ok.
  destruct (Rlt_dec tau near_expiry) as [Hn|_]; [contradiction|done].
Qed.

(** X2. When [hs_price_wrapper] returns, a line whose tau is not below
    0.0039 (and whose label no later line carries) holds in 'V0' the value
    [call_price] returned for its spot, variance, strike and maturity. *)
Theorem hs_price_wrapper_prices_far_rows (pricer : P)
    (pre post : list (L * gmap string R)) (ix : L) (row : gmap string R)
    (s var k tau : R) (df' : DataFrame) :
  reads row "S0" "Var0" "tau0" s var k tau →
  ¬ tau < near_expiry →
  ix ∉ post.*1 →
  hs_price_wrapper (pre ++ (ix, row) :: post) pricer = Ok df' →
  ∃ p n, call_price_of pricer s var k tau = Ok p ∧ (0 < n)%nat ∧
         loc_get df' ix "V0" = replicate n (Some p).
Proof.
  intros Hreads Hfar Hpost. unfold hs_price_wrapper.
  rewrite foldM_app.
  destruct (foldM (hs_price_body pricer) pre _) as [df1|] eqn:Hpre; [|done].
  rewrite bind_Ok. cbn [foldM].
  rewrite (hs_price_body_far _ _ _ _ _ _ _ _ Hreads Hfar).
  destruct (call_price_of pricer s var k tau) as [p|]; [|done].
  rewrite !bind_Ok. intros Hf.
  destruct (hs_price_fold_keeps _ _ _ _ ix "V0" Hf Hpost) as [_ Hkeep].
  exists p, (length (filter (λ line, line.1 = ix) df1)).
  split; [done|]. split.
  - apply labelled_lines. rewrite (hs_price_fold_labels _ _ _ _ Hpre).
    rewrite fmap_app. apply elem_of_app. right. cbn. apply elem_of_cons. by left.
  - by rewrite Hkeep, loc_get_loc_set.
Qed.

(** *** The two price wrappers side by side *)

Lemma row_get_raises (row : gmap string R) (c : string) (e : exn) :
  row_get row c = Raise e → e = KeyError.
Proof. unfold row_get. destruct (row !! c); [done|]. by intros [= <-]. Qed.

(** No line of the table has a readable tau0 below the threshold. *)
Definition no_near_expiry (rows : list (L * gmap string R)) : Prop :=
  ∀ line tau, line ∈ rows → row_get line.2 "tau0" = Ok tau →
              ¬ tau < near_expiry.

Lemma bind_bind {A B C : Type} (m : result A) (f : A → result B)
    (g : B → result C) :
  (m ≫= f) ≫= g = m ≫= (λ a, f a ≫= g).
Proof. by destruct m. Qed.

(** Far from expiry the two loop bodies do the same store, whatever the
    rest of the loop does with the frame. *)
Lemma atm_body_far_step {X : Type} (pricer : P) (ix : L)
    (row : gmap string R) (df : DataFrame) (price : option R)
    (rest_atm : DataFrame * option R → result X)
    (rest_hs : DataFrame → result X) :
  (∀ tau, row_get row "tau0" = Ok tau → ¬ tau < near_expiry) →
  (∀ d pr, rest_atm (d, pr) = rest_hs d) →
  atm_body pricer "S0" "Var0" "tau0" "V0" (ix, row) (df, price) ≫= rest_atm
  = hs_price_body pricer (ix, row) df ≫= rest_hs.
Proof.
  intros Hrow Hrest. unfold atm_body, hs_price_body.
  destruct (row_get row "S0") as [s|e]; [|done]. rewrite !bind_Ok.
  destruct (row_get row "Var0") as [var|e]; [|done]. rewrite !bind_Ok.
  destruct (row_get row "K") as [k|ek] eqn:Hk;
    destruct (row_get row "tau0") as [tau|et] eqn:Ht;
    rewrite ?bind_Ok, ?bind_Raise; try done.
  - destruct (Rlt_dec tau near_expiry) as [Hnear|_];
      [by destruct (Hrow tau)|].
    destruct (call_price_of pricer s var k tau) as [p|e]; [|done].
    rewrite !bind_Ok. cbn [read_local]. rewrite !bind_Ok. apply Hrest.
  - by rewrite (row_get_raises _ _ _ Hk), (row_get_raises _ _ _ Ht).
Qed.

Lemma atm_fold_far (pricer : P) (rows : list (L * gmap string R))
    (df : DataFrame) (price : option R) :
  no_near_expiry rows →
  (st ← foldM (atm_body pricer "S0" "Var0" "tau0" "V0") rows (df, price);
   Ok st.1)
  = foldM (hs_price_body pricer) rows df.
Proof.
  revert df price. induction rows as [|[ix row] rows IH]; intros df price Hfar;
    [done|].
  assert (Hrows : no_near_expiry rows).
  { intros line tau Hin. apply Hfar. apply elem_of_cons. by right. }
  assert (Hrow : ∀ tau, row_get row "tau0" = Ok tau → ¬ tau < near_expiry).
  { intros tau. apply (Hfar (ix, row)). apply elem_of_cons. by left. }
  cbn [foldM]. rewrite bind_bind.
  apply atm_body_far_step; [exact Hrow|].
  intros d pr. by apply IH.
Qed.

(** X3. On a table with no near-expiry line, [hs_price_1M_ATM_wrapper]
    called with the column names of [hs_price_wrapper] has the same outcome
    as [hs_price_wrapper]: the same frame, or an exception of the same
    kind. *)
Theorem price_wrappers_agree_far_from_expiry (df : DataFrame) (pricer : P) :
  no_near_expiry df →
  hs_price_1M_ATM_wrapper df pricer "S0" "Var0" "tau0" "V0"
  = hs_price_wrapper df pricer.
Proof.
  intros Hfar. unfold hs_price_1M_ATM_wrapper, hs_price_wrapper.
  by apply atm_fold_far.
Qed.

(** *** What hs_price_1M_ATM_wrapper leaves alone *)

Lemma atm_fold_same_but (pricer : P)
    (s_name var_name tau_name v_name : string)
    (rows : list (L * gmap string R)) (df df' : DataFrame)
    (price price' : option R) :
  foldM (atm_body pricer s_name var_name tau_name v_name) rows (df, price)
    = Ok (df', price') →
  same_but [v_name] df df'.
Proof.
  revert df price. induction rows as [|line rows IH]; intros df price;
    cbn [foldM].
  - intros [= <- <-]. apply same_but_refl.
  - destruct (atm_body pricer s_name var_name tau_name v_name line (df, price))
      as [[df1 price1]|] eqn:Hb; [|done].
    rewrite bind_Ok. intros Hf.
    apply (same_but_trans _ df df1 df'); [|by eapply IH].
    destruct (atm_body_inv _ _ _ _ _ _ _ _ _ _ Hb)
      as (s & var & k & tau & p & _ & _ & Hcase).
    assert (Hin : v_name ∈ [v_name]) by (apply elem_of_cons; by left).
    destruct Hcase as [(_ & _ & ->)|(_ & _ & ->)].
    + eapply same_but_trans; by apply same_but_loc_set.
    + by apply same_but_loc_set.
Qed.

(** X17. When [hs_price_1M_ATM_wrapper] returns, the frame has the labels
    of the input, line by line, and every cell outside the output column is
    as it was, whatever the column names. *)
Theorem atm_wrapper_keeps_frame (df df' : DataFrame) (pricer : P)
    (s_name var_name tau_name v_name : string) :
  hs_price_1M_ATM_wrapper df pricer s_name var_name tau_name v_name = Ok df' →
  df'.*1 = df.*1 ∧
  ∀ (ix : L) (c : string), c ≠ v_name → loc_get df' ix c = loc_get df ix c.
Proof.
  unfold hs_price_1M_ATM_wrapper.
  destruct (foldM _ df (df, None)) as [[df1 price1]|] eqn:Hf; [|done].
  rewrite bind_Ok. cbn [fst]. intros [= <-].
  destruct (atm_fold_same_but _ _ _ _ _ _ _ _ _ _ Hf) as [Hl Hc].
  split; [done|]. intros ix c Hne. apply Hc.
  by intros ->%list_elem_of_singleton.
Qed.

(** *** calc_Heston_delta_vega_wrapper *)

Section DeltaVega.
Variable pricer : P.
Variables s_name k_name var_name tau_name delta_name vega_name : string.

Local Abbreviation dv_body :=
  (delta_vega_body pricer s_name k_name var_name tau_name delta_name vega_name).

(** What a successful pass through the body has done. *)
Lemma delta_vega_body_inv (line : L * gmap string R) (df df' : DataFrame) :
  dv_body line df = Ok df' →
  ∃ s0 v0 k tau d vega,
    row_get line.2 s_name = Ok s0 ∧ row_get line.2 var_name = Ok v0 ∧
    row_get line.2 k_name = Ok k ∧ row_get line.2 tau_name = Ok tau ∧
    calc_Heston_delta_by_FD s0 v0 k tau pricer = Ok d ∧
    calc_Heston_vega_by_FD s0 v0 k tau pricer = Ok vega ∧
    df' = loc_set (loc_set df line.1 delta_name d) line.1 vega_name vega.
Proof.
  destruct line as [key row]. unfold delta_vega_body. cbn [fst snd].
  destruct (row_get row s_name) as [s0|]; [|done]. rewrite bind_Ok.
  destruct (row_get row var_name) as [v0|]; [|done]. rewrite bind_Ok.
  destruct (row_get row k_name) as [k|]; [|done]. rewrite bind_Ok.
  destruct (row_get row tau_name) as [tau|]; [|done]. rewrite bind_Ok.
  destruct (calc_Heston_delta_by_FD s0 v0 k tau pricer) as [d|] eqn:Hd;
    [|done].
  rewrite bind_Ok.
  destruct (calc_Heston_vega_by_FD s0 v0 k tau pricer) as [vega|] eqn:Hvega;
    [|done].
  rewrite bind_Ok. intros [= <-]. by exists s0, v0, k, tau, d, vega.
Qed.

Lemma delta_vega_fold_keeps (rows : list (L * gmap string R))
    (df df' : DataFrame) (ix : L) (c : string) :
  foldM dv_body rows df = Ok df' →
  ix ∉ rows.*1 →
  loc_get df' ix c = loc_get df ix c.
Proof.
  revert df. induction rows as [|line rows IH]; intros df; cbn.
  - by intros [= <-] _.
  - destruct (dv_body line df) as [df1|] eqn:Hb; [|done].
    rewrite bind_Ok. intros Hf Hnot.
    apply not_elem_of_cons in Hnot as [Hne Hnot].
    rewrite (IH df1 Hf Hnot).
    destruct (delta_vega_body_inv _ _ _ Hb)
      as (s0 & v0 & k & tau & d & vega & _ & _ & _ & _ & _ & _ & ->).
    by rewrite !loc_get_loc_set_other.
Qed.

Lemma delta_vega_body_same_but (line : L * gmap string R) (df df' : DataFrame) :
  dv_body line df = Ok df' → same_but [delta_name; vega_name] df df'.
Proof.
  intros Hb.
  destruct (delta_vega_body_inv _ _ _ Hb)
    as (s0 & v0 & k & tau & dl & vega & _ & _ & _ & _ & _ & _ & ->).
  eapply same_but_trans; apply same_but_loc_set.
  - apply elem_of_cons. by left.
  - apply elem_of_cons. right. apply elem_of_cons. by left.
Qed.



End DeltaVega.

(** *** Missing columns *)

Definition hs_price_columns : list string := ["S0"; "Var0"; "tau0"; "K"].

Lemma row_get_missing (row : gmap string R) (c : string) :
  row !! c = None → row_get row c = Raise KeyError.
Proof. unfold row_get. by intros ->. Qed.

Lemma row_get_outcome (row : gmap string R) (c : string) :
  (∃ x, row !! c = Some x ∧ row_get row c = Ok x) ∨
  (row !! c = None ∧ row_get row c = Raise KeyError).
Proof. unfold row_get. destruct (row !! c) as [x|]; eauto. Qed.

Lemma hs_price_body_needs_columns (pricer : P) (ix : L)
    (row : gmap string R) (df : DataFrame) (c : string) :
  c ∈ hs_price_columns → row !! c = None →
  hs_price_body pricer (ix, row) df = Raise KeyError.
Proof.
  intros Hc Hmiss. unfold hs_price_body.
  destruct (row_get_outcome row "S0") as [(s & Hs & ->)|[_ ->]]; [|done].
  destruct (row_get_outcome row "Var0") as [(var & Hv & ->)|[_ ->]]; [|done].
  destruct (row_get_outcome row "tau0") as [(tau & Ht & ->)|[_ ->]]; [|done].
  destruct (row_get_outcome row "K") as [(k & Hk & ->)|[_ ->]]; [|done].
  exfalso. unfold hs_price_columns in Hc.
  repeat (apply elem_of_cons in Hc as [->|Hc]; [congruence|]).
  by apply elem_of_nil in Hc.
Qed.

(** X14. [hs_price_wrapper] needs the columns 'S0', 'Var0', 'tau0' and 'K'
    in every line: when the first line lacks one of them the call fails
    with KeyError, whatever the pricer, and when the call returns every
    line of the table had all four. *)
Theorem hs_price_wrapper_needs_columns (pricer : P) :
  (∀ (ix : L) (row : gmap string R) (rest : list (L * gmap string R))
     (c : string),
     c ∈ hs_price_columns → row !! c = None →
     hs_price_wrapper ((ix, row) :: rest) pricer = Raise KeyError)
  ∧
  (∀ (df df' : DataFrame) (line : L * gmap string R) (c : string),
     hs_price_wrapper df pricer = Ok df' →
     line ∈ df → c ∈ hs_price_columns → is_Some (line.2 !! c)).
Proof.
  split.
  - intros ix row rest c Hc Hmiss. unfold hs_price_wrapper. cbn [foldM].
    by rewrite (hs_price_body_needs_columns pricer ix row _ c Hc Hmiss).
  - intros df df' line c. unfold hs_price_wrapper.
    generalize df at 2 as state. revert df'.
    induction df as [|[ix row] rows IH]; intros df' state Hrun Hin Hc;
      [by apply elem_of_nil in Hin|].
    cbn [foldM] in Hrun.
    destruct (hs_price_body pricer (ix, row) state) as [state'|] eqn:Hb;
      [|done].
    rewrite bind_Ok in Hrun.
    apply elem_of_cons in Hin as [->|Hin]; [|by eapply IH].
    cbn. destruct (row !! c) as [x|] eqn:Hrow; [by eexists|].
    by rewrite (hs_price_body_needs_columns pricer ix row state c Hc Hrow) in Hb.
Qed.

(** *** The two Greeks on a price that is a polynomial of degree two *)

(** X15. The symmetric difference quotient is exact on polynomials of
    degree two: when [call_price] is a s^2 + b s + c in the spot, the
    finite-difference delta at s0 <> 0 is 2 a s0 + b, and likewise for the
    sensitivity to the variance at v0 <> 0. *)
Theorem greeks_exact_on_quadratics (pricer : P) (s0 v0 k tau a b c : R) :
  (s0 ≠ 0 →
   (∀ s, call_price_of pricer s v0 k tau = Ok (a * s * s + b * s + c)) →
   calc_Heston_delta_by_FD s0 v0 k tau pricer = Ok (2 * a * s0 + b))
  ∧
  (v0 ≠ 0 →
   (∀ v, call_price_of pricer s0 v k tau = Ok (a * v * v + b * v + c)) →
   calc_Heston_vega_by_FD s0 v0 k tau pricer = Ok (2 * a * v0 + b)).
Proof.
  split.
  - intros Hs Hp. unfold calc_Heston_delta_by_FD. rewrite !Hp, !bind_Ok.
    rewrite fd_div_nonzero by lra. f_equal. field. lra.
  - intros Hv Hp. unfold calc_Heston_vega_by_FD. rewrite !Hp, !bind_Ok.
    rewrite fd_div_nonzero by lra. f_equal. field. lra.
Qed.

End Frames.

(** *** Running the wrappers on the benchmark pricer *)

Lemma call_price_midpoint_returns (self : ComputeHeston) (s0 v0 K tau : R) :
  ∃ p, call_price midpoint self s0 v0 K tau = Ok p.
Proof.
  unfold call_price, midpoint, lower_bound, cutoff. cbn [quad_run].
  destruct (call_price_h_returns self s0 v0 K tau ((0 + 500) / 2)) as [y Hy];
    [lra|].
  rewrite Hy. cbn. eauto.
Qed.

Lemma greeks_midpoint_return (self : ComputeHeston) (s0 v0 k tau : R) :
  s0 ≠ 0 → v0 ≠ 0 →
  ∃ d vega,
    calc_Heston_delta_by_FD (H := heston_pricer midpoint) s0 v0 k tau self = Ok d ∧
    calc_Heston_vega_by_FD (H := heston_pricer midpoint) s0 v0 k tau self = Ok vega.
Proof.
  intros Hs Hv.
  unfold calc_Heston_delta_by_FD, calc_Heston_vega_by_FD, call_price_of,
    heston_pricer.
  destruct (call_price_midpoint_returns self (s0 + s0 * 0.001) v0 k tau) as [a Ha].
  destruct (call_price_midpoint_returns self (s0 - s0 * 0.001) v0 k tau) as [b Hb].
  destruct (call_price_midpoint_returns self s0 (v0 + v0 * 0.001) k tau) as [c Hc].
  destruct (call_price_midpoint_returns self s0 (v0 - v0 * 0.001) k tau) as [d Hd].
  rewrite Ha, Hb, Hc, Hd. rewrite !bind_Ok.
  rewrite !fd_div_nonzero by lra. eauto.
Qed.

(** A call one year from expiry, at the money. *)
Definition far_row : gmap string R :=
  <["S0" := 100]> (<["Var0" := 0.04]> (<["tau0" := 1]> (<["K" := 100]> ∅))).

Definition far_table : list (nat * gmap string R) := [(0%nat, far_row)].

Lemma far_row_reads : reads far_row "S0" "Var0" "tau0" 100 0.04 100 1.
Proof. unfold reads, row_get, far_row. by simplify_map_eq. Qed.

Lemma far_row_tau : ¬ 1 < near_expiry.
Proof. unfold near_expiry. lra. Qed.

Lemma far_table_no_near_expiry : no_near_expiry far_table.
Proof.
  intros line tau ->%list_elem_of_singleton. cbn.
  destruct far_row_reads as (_ & _ & _ & Ht). rewrite Ht.
  intros [= <-]. exact far_row_tau.
Qed.

Lemma hs_price_wrapper_keeps_frame_witness :
  loc_get (loc_set near_table 0%nat "V0" (Rmax (100 - 90) 0)) 0%nat "K"
  = loc_get near_table 0%nat "K".
Proof.
  apply (proj2 (hs_price_wrapper_keeps_frame (H := heston_pricer midpoint)
                  near_table _ benchmark
                  (eq_trans
                     (f_equal (λ m, m ≫= (λ a', Ok a'))
                        (hs_price_body_near (H := heston_pricer midpoint)
                           benchmark 0%nat near_row near_table 100 0.04 90 0.001
                           near_row_reads near_row_tau))
                     eq_refl))).
  done.
Defined.

Lemma hs_price_wrapper_prices_far_rows_witness :
  ∃ df' p n,
    hs_price_wrapper (H := heston_pricer midpoint) far_table benchmark = Ok df' ∧
    call_price midpoint benchmark 100 0.04 100 1 = Ok p ∧
    (0 < n)%nat ∧ loc_get df' 0%nat "V0" = replicate n (Some p).
Proof.
  destruct (call_price_midpoint_returns benchmark 100 0.04 100 1) as [p Hp].
  assert (Hrun : hs_price_wrapper (H := heston_pricer midpoint)
                   far_table benchmark
                 = Ok (loc_set far_table 0%nat "V0" p)).
  { unfold hs_price_wrapper, far_table. cbn [foldM].
    rewrite (hs_price_body_far _ _ _ _ _ _ _ _ far_row_reads far_row_tau).
    unfold call_price_of, heston_pricer. rewrite Hp. reflexivity. }
  destruct (hs_price_wrapper_prices_far_rows (H := heston_pricer midpoint)
              benchmark [] [] 0%nat far_row 100 0.04 100 1 _
              far_row_reads far_row_tau (not_elem_of_nil _) Hrun)
    as (p' & n & Hp' & Hn & Hcell).
  exists (loc_set far_table 0%nat "V0" p), p', n. done.
Defined.

Lemma price_wrappers_agree_far_from_expiry_witness :
  hs_price_1M_ATM_wrapper (H := heston_pricer midpoint) far_table benchmark
    "S0" "Var0" "tau0" "V0"
  = hs_price_wrapper (H := heston_pricer midpoint) far_table benchmark.
Proof.
  apply (price_wrappers_agree_far_from_expiry (H := heston_pricer midpoint)).
  intros line tau ->%list_elem_of_singleton. cbn.
  destruct far_row_reads as (_ & _ & _ & Ht). rewrite Ht.
  intros [= <-]. unfold near_expiry. lra.
Defined.

Lemma atm_wrapper_keeps_frame_witness :
  ∃ df',
    hs_price_1M_ATM_wrapper (H := heston_pricer midpoint) far_table benchmark
      "S0" "Var0" "tau0" "V0" = Ok df' ∧
    loc_get df' 0%nat "K" = loc_get far_table 0%nat "K".
Proof.
  destruct (call_price_midpoint_returns benchmark 100 0.04 100 1) as [p Hp].
  assert (Hrun : hs_price_1M_ATM_wrapper (H := heston_pricer midpoint)
                   far_table benchmark "S0" "Var0" "tau0" "V0"
                 = Ok (loc_set far_table 0%nat "V0" p)).
  { unfold hs_price_1M_ATM_wrapper.
    rewrite (atm_fold_far (H := heston_pricer midpoint) benchmark far_table
               far_table None far_table_no_near_expiry).
    unfold far_table. cbn [foldM].
    rewrite (hs_price_body_far _ _ _ _ _ _ _ _ far_row_reads far_row_tau).
    unfold call_price_of, heston_pricer. rewrite Hp. reflexivity. }
  exists (loc_set far_table 0%nat "V0" p). split; [exact Hrun|].
  apply (proj2 (atm_wrapper_keeps_frame (H := heston_pricer midpoint)
                  far_table _ benchmark "S0" "Var0" "tau0" "V0" Hrun)).
  done.
Defined.

(** On the near-expiry line of [near_table] the two Greeks are computed all
    the same. *)
Lemma delta_vega_wrapper_runs :
  ∃ df', calc_Heston_delta_vega_wrapper (H := heston_pricer midpoint)
           near_table benchmark "S0" "K" "Var0" "tau0" "delta" "vega" = Ok df'.
Proof.
  destruct (greeks_midpoint_return benchmark 100 0.04 90 0.001) as (d & vega & Hd & Hv);
    [lra..|].
  destruct near_row_reads as (Hs & Hvar & Hk & Ht).
  unfold calc_Heston_delta_vega_wrapper, near_table. cbn [foldM].
  unfold delta_vega_body. rewrite Hs, Hvar, Hk, Ht. rewrite !bind_Ok.
  rewrite Hd, bind_Ok, Hv, bind_Ok. eauto.
Qed.



(** *** Near expiry the pricer is not consulted *)

(** Every line can be read and has its tau0 below the threshold. *)
Definition all_near_expiry {L : Type} (rows : list (L * gmap string R)) : Prop :=
  ∀ line, line ∈ rows →
    ∃ s var k tau, reads line.2 "S0" "Var0" "tau0" s var k tau ∧
                   tau < near_expiry.

Lemma near_expiry_fold_ignores_pricer {P1 P2 L : Type}
    {H1 : HasCallPrice P1} {H2 : HasCallPrice P2} `{EqDecision L}
    (rows : list (L * gmap string R)) (df : list (L * gmap string R))
    (p1 : P1) (p2 : P2) :
  all_near_expiry rows →
  foldM (hs_price_body p1) rows df = foldM (hs_price_body p2) rows df ∧
  ∃ df', foldM (hs_price_body p1) rows df = Ok df'.
Proof.
  revert df. induction rows as [|[ix row] rows IH]; intros df Hnear;
    cbn [foldM].
  - eauto.
  - destruct (Hnear (ix, row)) as (s & var & k & tau & Hreads & Htau);
      [apply elem_of_cons; by left|].
    cbn [snd] in Hreads.
    rewrite (hs_price_body_near p1 ix row df s var k tau Hreads Htau).
    rewrite (hs_price_body_near p2 ix row df s var k tau Hreads Htau).
    rewrite !bind_Ok. apply IH.
    intros line Hin. apply Hnear. apply elem_of_cons. by right.
Qed.

(** X16. On a table all of whose lines are near expiry, [hs_price_wrapper]
    returns a frame, and the same frame whatever pricer it is given: no
    price is asked for. *)
Theorem near_expiry_table_ignores_pricer {P1 P2 L : Type}
    {H1 : HasCallPrice P1} {H2 : HasCallPrice P2} `{EqDecision L}
    (df : list (L * gmap string R)) (p1 : P1) (p2 : P2) :
  all_near_expiry df →
  hs_price_wrapper df p1 = hs_price_wrapper df p2 ∧
  ∃ df', hs_price_wrapper df p1 = Ok df'.
Proof.
  intros Hnear. unfold hs_price_wrapper.
  by apply near_expiry_fold_ignores_pricer.
Qed.

Lemma near_expiry_table_ignores_pricer_witness :
  hs_price_wrapper (H := heston_pricer midpoint) near_table benchmark
  = hs_price_wrapper (H := heston_pricer trapezoid) near_table benchmark.
Proof.
  apply (near_expiry_table_ignores_pricer
           (H1 := heston_pricer midpoint) (H2 := heston_pricer trapezoid)
           near_table benchmark benchmark).
  intros line ->%list_elem_of_singleton.
  exists 100, 0.04, 90, 0.001. split.
  - cbn. unfold reads, row_get, near_row. by simplify_map_eq.
  - unfold near_expiry. lra.
Defined.

(** A line without strike. *)
Definition strikeless_row : gmap string R :=
  <["S0" := 100]> (<["Var0" := 0.04]> (<["tau0" := 1]> ∅)).

Lemma hs_price_wrapper_needs_columns_witness :
  hs_price_wrapper (H := heston_pricer midpoint)
    [(0%nat, strikeless_row)] benchmark = Raise KeyError.
Proof.
  apply (proj1 (hs_price_wrapper_needs_columns (H := heston_pricer midpoint)
                  benchmark) 0%nat strikeless_row [] "K").
  - unfold hs_price_columns. do 3 (apply elem_of_cons; right).
    apply elem_of_cons. by left.
  - unfold strikeless_row. by simplify_map_eq.
Defined.

(** A pricer whose price is a polynomial of degree two in the spot. *)
Definition polynomial_pricer : HasCallPrice (R * R * R) :=
  λ coeffs s v k tau, Ok (coeffs.1.1 * s * s + coeffs.1.2 * s + coeffs.2).

Lemma greeks_exact_on_quadratics_witness :
  calc_Heston_delta_by_FD (H := polynomial_pricer) 100 0.04 90 1 (3, 2, 1)
  = Ok (2 * 3 * 100 + 2).
Proof.
  apply (proj1 (greeks_exact_on_quadratics (H := polynomial_pricer)
                  (3, 2, 1) 100 0.04 90 1 3 2 1)).
  - lra.
  - intros s. reflexivity.
Defined.

End TableFacts.

(** ** More on the simulator *)

Module SimulatorFacts.
Import Simulator.

Section AnyArithmetic.
Context {F : Type} `{Arith F}.
Context {D : Type} (date_range : D → D → list D).


Lemma frame_column_lengths (df : @frame F D) :
  length (col_S df) = length (index df) ∧ length (col_V df) = length (index df).
Proof. unfold col_S, col_V, index. by rewrite !length_fmap. Qed.

(** Two variance columns that start alike and obey the same recurrence on
    the same shocks are the same column. *)
Lemma variance_columns_agree (p q : @params F D) (w0 w0' w1 : list F)
    (ps pv ps' pv' : list F) (m : nat) :
  kappa p = kappa q → theta p = theta q → sigma p = sigma q →
  length pv = m → length pv' = m →
  pv !! 0%nat = pv' !! 0%nat →
  (∀ t, (1 ≤ t < m)%nat → step_at p w0 w1 ps pv t) →
  (∀ t, (1 ≤ t < m)%nat → step_at q w0' w1 ps' pv' t) →
  pv = pv'.
Proof.
  intros Hk Ht Hs Hl Hl' H0 Hp Hq.
  apply list_eq. intros t.
  destruct (decide (t < m)%nat) as [Hlt|Hge].
  - induction t as [|t IH]; [exact H0|].
    destruct (Hp (S t)) as (s & v & z0 & z1 & _ & Hv & _ & Hz & _ & Hvt); [lia|].
    destruct (Hq (S t)) as (s' & v' & z0' & z1' & _ & Hv' & _ & Hz' & _ & Hvt');
      [lia|].
    replace (S t - 1)%nat with t in * by lia.
    rewrite IH in Hv by lia. rewrite Hv in Hv'. injection Hv' as <-.
    rewrite Hz in Hz'. injection Hz' as <-.
    rewrite Hvt, Hvt'. by rewrite Hk, Ht, Hs.
  - rewrite !lookup_ge_None_2 by lia. done.
Qed.

(** X7. The variance column does not depend on the drift mu nor on the
    initial asset price s0: two calls on the same grid and the same state
    of the random source, with the same kappa, theta, sigma, rho and v0,
    return the same variance column. *)
Theorem variance_column_ignores_asset (p q : params) (g g1 g2 : rng)
    (df1 df2 : @frame F D) :
  kappa p = kappa q → theta p = theta q → sigma p = sigma q →
  rho p = rho q → v0 p = v0 q →
  date_range (start_date p) (end_date p)
    = date_range (start_date q) (end_date q) →
  simulate_heston date_range p g = Ok (df1, g1) →
  simulate_heston date_range q g = Ok (df2, g2) →
  col_V df1 = col_V df2.
Proof.
  intros Hk Ht Hs Hr Hv Hgrid Hrun1 Hrun2.
  assert (Hpos : (1 ≤ length (date_range (start_date p) (end_date p)))%nat).
  { destruct (date_range (start_date p) (end_date p)) as [|d grid] eqn:Hg;
      [|cbn; lia].
    rewrite (simulate_heston_empty date_range p g Hg) in Hrun1. done. }
  assert (Hpos' : (1 ≤ length (date_range (start_date q) (end_date q)))%nat)
    by (by rewrite <- Hgrid).
  destruct (simulate_heston_run date_range p g Hpos)
    as (dfp & w0 & w1 & gp & Hd & Hrp & Hip & _ & H0p & Hallp).
  destruct (simulate_heston_run date_range q g Hpos')
    as (dfq & w0' & w1' & gq & Hd' & Hrq & Hiq & _ & H0q & Hallq).
  rewrite Hrp in Hrun1. injection Hrun1 as <- <-.
  rewrite Hrq in Hrun2. injection Hrun2 as <- <-.
  rewrite <- Hgrid, <- Hr, Hd in Hd'.
  injection Hd' as <- <- <-.
  rewrite <- Hgrid in Hallq, Hiq.
  destruct (frame_column_lengths dfp) as [_ Hlp].
  destruct (frame_column_lengths dfq) as [_ Hlq].
  rewrite Hip in Hlp. rewrite Hiq in Hlq.
  eapply (variance_columns_agree p q); try done.
  by rewrite H0p, H0q, Hv.
Qed.

End AnyArithmetic.


(** The example of the simulator with another drift and another initial
    asset price. *)
Definition example_params_other_asset : params :=
  {| mu := 0.25%float; kappa := 2%float; theta := 0.03125%float;
     sigma := 1%float; rho := (-0.5)%float;
     s0 := 50%float; v0 := 0.0001220703125%float;
     start_date := 0%Z; end_date := 3%Z |}.

Lemma variance_column_ignores_asset_witness :
  ∃ df1 df2 g1 g2,
    simulate_heston business_days example_params example_rng = Ok (df1, g1) ∧
    simulate_heston business_days example_params_other_asset example_rng
      = Ok (df2, g2) ∧
    col_V df1 = col_V df2.
Proof.
  destruct (simulate_heston_run business_days example_params example_rng)
    as (df1 & _ & _ & g1 & _ & H1 & _); [vm_compute; lia|].
  destruct (simulate_heston_run business_days example_params_other_asset
              example_rng)
    as (df2 & _ & _ & g2 & _ & H2 & _); [vm_compute; lia|].
  exists df1, df2, g1, g2. split; [exact H1|]. split; [exact H2|].
  apply (variance_column_ignores_asset business_days
           example_params example_params_other_asset example_rng g1 g2 df1 df2);
    try reflexivity; assumption.
Defined.

(** *** Without volatility of variance, in exact arithmetic *)

Section ExactArithmetic.
Context {D : Type} (date_range : D → D → list D).
Local Open Scope R_scope.

(** The variance after [t] steps of mean reversion. *)
Definition reverted (kappa theta v0 : R) (t : nat) : R :=
  theta + (1 - kappa / 253) ^ t * (v0 - theta).

Lemma reverted_nonneg (kappa theta v0 : R) (t : nat) :
  0 <= kappa <= 253 → 0 <= theta → 0 <= v0 → 0 <= reverted kappa theta v0 t.
Proof.
  intros Hk Ht Hv. unfold reverted.
  set (a := 1 - kappa / 253).
  assert (Ha : 0 <= a <= 1) by (unfold a; lra).
  assert (Hp : 0 <= a ^ t <= 1).
  { split; [apply pow_le; lra|].
    rewrite <- (pow1 t). apply pow_incr. lra. }
  nra.
Qed.

Lemma milstein_without_vol (kappa theta v z1 : R) :
  milstein_V kappa theta 0 v z1 = theta + (1 - kappa / 253) * (v - theta).
Proof. unfold milstein_V, dt, day_count, sq. cbn. field. Qed.

(** X8. In exact arithmetic, with sigma = 0, rho in [-1, 1],
    0 <= kappa <= 253 and non-negative theta and v0, the variance column is
    the deterministic mean reversion
    V[t] = theta + (1 - kappa/253)^t (v0 - theta), which never leaves
    [0, +oo): no square root of a negative number is taken. *)
Theorem variance_reverts_without_vol (p : params) (g : rng) (m : nat) :
  length (date_range (start_date p) (end_date p)) = m → (1 ≤ m)%nat →
  sigma p = 0 → -1 <= rho p <= 1 →
  0 <= kappa p <= 253 → 0 <= theta p → 0 <= v0 p →
  ∃ df g',
    simulate_heston date_range p g = Ok (df, g') ∧
    ∀ t, (t < m)%nat →
      col_V df !! t = Some (reverted (kappa p) (theta p) (v0 p) t) ∧
      0 <= reverted (kappa p) (theta p) (v0 p) t.
Proof.
  intros Hm Hpos Hs _ Hk Ht Hv. subst m.
  destruct (simulate_heston_run date_range p g Hpos)
    as (df & w0 & w1 & g' & _ & Hrun & _ & _ & H0 & Hall).
  exists df, g'. split; [exact Hrun|].
  intros t Hlt. split; [|by apply reverted_nonneg].
  induction t as [|t IH].
  - rewrite H0. unfold reverted. f_equal. cbn. ring.
  - destruct (Hall (S t)) as (s & v & z0 & z1 & _ & Hvp & _ & _ & _ & Hvt);
      [lia|].
    replace (S t - 1)%nat with t in Hvp by lia.
    rewrite IH in Hvp by lia. injection Hvp as <-.
    rewrite Hvt, Hs, milstein_without_vol. f_equal.
    unfold reverted. cbn [pow]. ring.
Qed.

End ExactArithmetic.

Lemma variance_reverts_without_vol_witness :
  ∃ df g',
    simulate_heston business_days
      {| mu := 0.05%R; kappa := 2%R; theta := 0.04%R; sigma := 0%R;
         rho := (-0.5)%R; s0 := 100%R; v0 := 0.09%R;
         start_date := 0%Z; end_date := 3%Z |}
      {| samples := INR; cursor := 0 |} = Ok (df, g') ∧
    col_V df !! 1%nat = Some (reverted 2 0.04 0.09 1).
Proof.
  destruct (variance_reverts_without_vol business_days
              {| mu := 0.05%R; kappa := 2%R; theta := 0.04%R; sigma := 0%R;
                 rho := (-0.5)%R; s0 := 100%R; v0 := 0.09%R;
                 start_date := 0%Z; end_date := 3%Z |}
              {| samples := INR; cursor := 0 |} 4)
    as (df & g' & Hrun & Hall).
  - reflexivity.
  - lia.
  - reflexivity.
  - cbn. lra.
  - cbn. lra.
  - cbn. lra.
  - cbn. lra.
  - exists df, g'. split; [exact Hrun|]. apply (Hall 1%nat). lia.
Defined.

(** *** Uncorrelated shocks, in exact arithmetic *)

Lemma zip_with_right {A B : Type} (h : A → B → B) (l : list A) (k : list B) :
  (∀ a b, h a b = b) → length l = length k → zip_with h l k = k.
Proof.
  intros Hh. revert k. induction l as [|a l IH]; intros [|b k] Hlen;
    try discriminate; [done|].
  cbn in *. rewrite Hh, IH by lia. done.
Qed.

(** X9. In exact arithmetic, for rho = 0 the variance shocks are the
    auxiliary draw itself: on a grid of m >= 1 points they are the m - 1
    samples that follow the m - 1 asset shocks in the random source, and no
    asset shock enters them. *)
Theorem uncorrelated_shocks_are_auxiliary (m : nat) (g : rng) :
  (1 ≤ m)%nat →
  ∃ w0 w1 g',
    draw_shocks 0%R m g = Ok (w0, w1, g') ∧
    w0 = samples g <$> seq (cursor g) (m - 1) ∧
    w1 = samples g <$> seq (cursor g + (m - 1)) (m - 1).
Proof.
  intros Hm. eexists _, _, _.
  split; [apply (draw_shocks_ok 0%R m g Hm)|].
  split; [reflexivity|].
  unfold correlate. apply zip_with_right.
  - intros a b. unfold sq. cbn.
    replace (1 - 0 * 0)%R with 1%R by ring. rewrite sqrt_1. ring.
  - by rewrite !length_fmap, !length_seq.
Qed.

Lemma uncorrelated_shocks_are_auxiliary_witness :
  ∃ w0 w1 g',
    draw_shocks 0%R 3 {| samples := INR; cursor := 0 |} = Ok (w0, w1, g') ∧
    w1 = [INR 2; INR 3].
Proof.
  destruct (uncorrelated_shocks_are_auxiliary 3 {| samples := INR; cursor := 0 |})
    as (w0 & w1 & g' & Hd & _ & Hw1).
  - lia.
  - exists w0, w1, g'. split; [exact Hd|]. rewrite Hw1. reflexivity.
Defined.

(** *** NaN on binary64 *)

Lemma SFeqb_refl (s : SpecFloat.spec_float) :
  s ≠ SpecFloat.S754_nan → SpecFloat.SFeqb s s = true.
Proof.
  intros Hs. unfold SpecFloat.SFeqb.
  destruct s as [sg| sg | | sg mant e]; cbn; try done.
  - by destruct sg.
  - destruct sg; rewrite Z.compare_refl, Pos.compare_cont_refl; done.
Qed.

Lemma is_nan_spec (x : float) :
  is_nan x = true ↔ Prim2SF x = SpecFloat.S754_nan.
Proof.
  unfold is_nan. rewrite FloatAxioms.eqb_spec. split.
  - intros Hx. destruct (Prim2SF x) eqn:Hsx; try reflexivity;
      rewrite SFeqb_refl in Hx by done; discriminate Hx.
  - intros ->. reflexivity.
Qed.

Lemma nan_add_l (x y : float) : is_nan x = true → is_nan (x + y)%float = true.
Proof.
  rewrite !is_nan_spec, FloatAxioms.add_spec. by intros ->.
Qed.

Lemma nan_add_r (x y : float) : is_nan y = true → is_nan (x + y)%float = true.
Proof.
  rewrite !is_nan_spec, FloatAxioms.add_spec. intros ->.
  by destruct (Prim2SF x).
Qed.

Lemma nan_mul_l (x y : float) : is_nan x = true → is_nan (x * y)%float = true.
Proof.
  rewrite !is_nan_spec, FloatAxioms.mul_spec. by intros ->.
Qed.

Lemma nan_mul_r (x y : float) : is_nan y = true → is_nan (x * y)%float = true.
Proof.
  rewrite !is_nan_spec, FloatAxioms.mul_spec. intros ->.
  by destruct (Prim2SF x).
Qed.

Lemma nan_sqrt (x : float) : is_nan x = true → is_nan (PrimFloat.sqrt x) = true.
Proof.
  rewrite !is_nan_spec, FloatAxioms.sqrt_spec. by intros ->.
Qed.

Lemma nan_euler_S (mu s v z0 : float) :
  is_nan v = true → is_nan (euler_S mu s v z0) = true.
Proof.
  intros Hv. unfold euler_S. cbn.
  apply nan_mul_r, nan_add_r, nan_mul_l, nan_sqrt, nan_mul_l, Hv.
Qed.

Lemma nan_milstein_V (kappa theta sigma v z1 : float) :
  is_nan v = true → is_nan (milstein_V kappa theta sigma v z1) = true.
Proof.
  intros Hv. unfold milstein_V. cbn.
  apply nan_add_l, nan_add_l, nan_add_l, Hv.
Qed.

Section Binary64.
Context {D : Type} (date_range : D → D → list D).

(** X13. On binary64, NaN is absorbing: once the variance column holds a
    NaN at some index, the variance and the asset price are NaN at every
    later index of the returned path. *)
Theorem nan_variance_is_absorbing (p : params) (g g' : rng)
    (df : @frame float D) (t : nat) (v : float) :
  simulate_heston date_range p g = Ok (df, g') →
  col_V df !! t = Some v → is_nan v = true →
  ∀ u, (t < u < length df)%nat →
    (is_nan <$> col_V df !! u) = Some true ∧
    (is_nan <$> col_S df !! u) = Some true.
Proof.
  intros Hrun Hv Hnan.
  assert (Hpos : (1 ≤ length (date_range (start_date p) (end_date p)))%nat).
  { destruct (date_range (start_date p) (end_date p)) as [|d grid] eqn:Hg;
      [|cbn; lia].
    rewrite (simulate_heston_empty date_range p g Hg) in Hrun. done. }
  destruct (simulate_heston_run date_range p g Hpos)
    as (df0 & w0 & w1 & g0 & _ & Hrun0 & Hi & _ & _ & Hall).
  rewrite Hrun0 in Hrun. injection Hrun as -> ->.
  assert (Hlen : length df = length (date_range (start_date p) (end_date p))).
  { rewrite <- Hi. unfold index. by rewrite length_fmap. }
  rewrite <- Hlen in Hall.
  assert (Hstep : ∀ k, (t + k < length df)%nat →
            ∃ vk, col_V df !! (t + k)%nat = Some vk ∧ is_nan vk = true).
  { induction k as [|k IH]; intros Hk.
    - rewrite Nat.add_0_r. eauto.
    - destruct IH as (vk & Hvk & Hnk); [lia|].
      destruct (Hall (t + S k)%nat) as (s & v' & z0 & z1 & _ & Hv' & _ & _ & _ & Hvt);
        [lia|].
      replace (t + S k - 1)%nat with (t + k)%nat in Hv' by lia.
      rewrite Hvk in Hv'. injection Hv' as <-.
      eexists. split; [exact Hvt|]. by apply nan_milstein_V. }
  intros u Hu.
  destruct (Hstep (u - 1 - t)%nat) as (vk & Hvk & Hnk); [lia|].
  replace (t + (u - 1 - t))%nat with (u - 1)%nat in Hvk by lia.
  destruct (Hall u) as (s & v' & z0 & z1 & _ & Hv' & _ & _ & Hst & Hvt); [lia|].
  rewrite Hvk in Hv'. injection Hv' as <-.
  rewrite Hvt, Hst.
  split; apply (f_equal Some); [by apply nan_milstein_V|by apply nan_euler_S].
Qed.

End Binary64.

(** The out-of-domain example over three business days. *)
Definition nan_params : params :=
  {| mu := 0.0625%float; kappa := 2%float; theta := 0.03125%float;
     sigma := 1%float; rho := 2%float;
     s0 := 100%float; v0 := 0.03125%float;
     start_date := 0%Z; end_date := 2%Z |}.

Definition nan_run : result (frame * rng) :=
  Eval vm_compute in simulate_heston business_days nan_params example_rng.

Definition frame_of (run : result (@frame float Z * @rng float)) : frame :=
  match run with Ok (df, _) => df | Raise _ => [] end.

Definition rng_of (run : result (@frame float Z * @rng float)) : rng :=
  match run with Ok (_, g) => g | Raise _ => example_rng end.

Lemma nan_variance_is_absorbing_witness :
  (is_nan <$> col_V (frame_of nan_run) !! 2%nat) = Some true ∧
  (is_nan <$> col_S (frame_of nan_run) !! 2%nat) = Some true.
Proof.
  apply (nan_variance_is_absorbing business_days nan_params example_rng
           (rng_of nan_run) (frame_of nan_run) 1 nan).
  - vm_compute. reflexivity.
  - vm_compute. reflexivity.
  - vm_compute. reflexivity.
  - vm_compute. lia.
Defined.

End SimulatorFacts.

(** ** More on the pricer *)

Module PricerFacts.
Import Pricer.
Local Open Scope R_scope.

(** *** The characteristic function at xi = -i *)

(** Lines 65-67 of [characteristic_func]: the term kappa - i xi rho sigma,
    the root [d], and the divisor of [g]. *)
Definition cf_b (self : ComputeHeston) (xi : C) : C :=
  (kappa self - Ci * xi * rho self * sigma self)%C.

Definition cf_d (self : ComputeHeston) (xi : C) : C :=
  Csqrt (Csq (cf_b self xi)
         + RtoC (sigma self * sigma self) * (Ci * xi + Csq xi))%C.

Definition cf_g_divisor (self : ComputeHeston) (xi : C) : C :=
  (cf_b self xi + cf_d self xi)%C.

(** [characteristic_func], written with these three. *)
Lemma characteristic_func_parts (self : ComputeHeston) (xi : C) (s0 v0 tau : R) :
  characteristic_func self xi s0 v0 tau =
  (let ixi := Ci * xi in
   let d := cf_d self xi in
   let g := (cf_b self xi - d) / cf_g_divisor self xi in
   let ee := Cexp (- d * tau) in
   let C_ := ixi * r self * tau
             + RtoC (kappa self * theta self / (sigma self * sigma self))
               * ((cf_b self xi - d) * tau
                  - RtoC 2 * Clog ((RtoC 1 - g * ee) / (RtoC 1 - g))) in
   let D_ := (cf_b self xi - d) / RtoC (sigma self * sigma self)
             * ((RtoC 1 - ee) / (RtoC 1 - g * ee)) in
   Cexp (C_ + D_ * v0 + ixi * Clog s0))%C.
Proof. reflexivity. Qed.

Lemma cf_b_minus_i (self : ComputeHeston) :
  cf_b self (- Ci)%C = RtoC (kappa self - rho self * sigma self).
Proof. unfold cf_b. apply C_eq; cbn; ring. Qed.

Lemma cf_d_minus_i (self : ComputeHeston) :
  cf_d self (- Ci)%C = RtoC (Rabs (kappa self - rho self * sigma self)).
Proof.
  unfold cf_d. rewrite cf_b_minus_i.
  set (b := kappa self - rho self * sigma self).
  assert (Harg : (Csq b + RtoC (sigma self * sigma self)
                           * (Ci * - Ci + Csq (- Ci)))%C
                 = RtoC (Rabs b * Rabs b)).
  { apply C_eq; cbn; [|ring].
    replace (Rabs b * Rabs b) with (b * b); [ring|].
    unfold Rabs. destruct (Rcase_abs b); ring. }
  rewrite Harg. apply Csqrt_square. apply Rabs_pos.
Qed.

(** X10. At xi = -i the divisor of [g] in [characteristic_func] is zero
    exactly when kappa <= rho * sigma: for such parameters the factor
    CF(-i) that [integ_func] divides by (num = 1) is computed through a
    division by zero. *)
Theorem g_divisor_vanishes_at_minus_i (self : ComputeHeston) :
  cf_g_divisor self (- Ci)%C = RtoC 0 ↔ kappa self <= rho self * sigma self.
Proof.
  unfold cf_g_divisor. rewrite cf_b_minus_i, cf_d_minus_i.
  set (b := kappa self - rho self * sigma self).
  split.
  - intros Hz. apply (f_equal Re) in Hz. cbn in Hz.
    unfold Rabs in Hz. destruct (Rcase_abs b); unfold b in *; lra.
  - intros Hle. apply C_eq; cbn; [|ring].
    unfold Rabs. destruct (Rcase_abs b); unfold b in *; lra.
Qed.

Lemma Cexp_real (x : R) : Cexp (RtoC x) = RtoC (exp x).
Proof. apply C_eq; cbn; rewrite ?cos_0, ?sin_0; ring. Qed.

(** X11. For valid parameters with rho * sigma < kappa and a positive spot,
    in exact arithmetic the characteristic function at xi = -i is the
    forward price: CF(-i) = s0 exp(r tau). *)
Theorem characteristic_func_at_minus_i_is_forward
    (self : ComputeHeston) (s0 v0 tau : R) :
  valid_parameters self → rho self * sigma self < kappa self → 0 < s0 →
  characteristic_func self (- Ci)%C s0 v0 tau = RtoC (s0 * exp (r self * tau)).
Proof.
  intros _ Hb Hs. rewrite characteristic_func_parts. cbv zeta.
  unfold cf_g_divisor. rewrite cf_d_minus_i, cf_b_minus_i.
  set (b := kappa self - rho self * sigma self).
  rewrite (Rabs_pos_eq b) by (unfold b; lra).
  assert (Hz : (RtoC b - RtoC b)%C = RtoC 0) by (apply C_eq; cbn; ring).
  rewrite Hz.
  assert (Hg : ∀ w : C, (RtoC 0 / w)%C = RtoC 0)
    by (intros w; apply C_eq; cbn; unfold Rdiv; ring).
  rewrite !Hg.
  assert (H1 : ∀ w : C, (RtoC 1 - RtoC 0 * w)%C = RtoC 1)
    by (intros w; apply C_eq; cbn; ring).
  rewrite H1.
  assert (H10 : (RtoC 1 - RtoC 0)%C = RtoC 1) by (apply C_eq; cbn; ring).
  rewrite H10.
  assert (H11 : (RtoC 1 / RtoC 1)%C = RtoC 1)
    by (apply C_eq; cbn; unfold Cnorm2; cbn; field).
  rewrite H11, (Clog_pos 1), ln_1, (Clog_pos s0) by lra.
  set (ee := Cexp (- RtoC b * tau)%C).
  set (c := RtoC (kappa self * theta self / (sigma self * sigma self))).
  assert (Hsum : (Ci * - Ci * r self * tau
                  + c * (RtoC 0 * tau - RtoC 2 * RtoC 0)
                  + RtoC 0 * ((RtoC 1 - ee) / RtoC 1) * v0
                  + Ci * - Ci * RtoC (ln s0))%C
                 = RtoC (r self * tau + ln s0))
    by (apply C_eq; cbn; ring).
  rewrite Hsum, Cexp_real, exp_plus, exp_ln by lra.
  f_equal. ring.
Qed.

Lemma characteristic_func_at_minus_i_is_forward_witness :
  characteristic_func benchmark (- Ci)%C 100 0.04 1
  = RtoC (100 * exp (r benchmark * 1)).
Proof.
  apply (characteristic_func_at_minus_i_is_forward benchmark 100 0.04 1).
  - unfold valid_parameters, benchmark; cbn; lra.
  - unfold benchmark; cbn; lra.
  - lra.
Defined.

(** *** Scaling spot and strike together *)

(** Complex numbers form a ring, and division is multiplication by the
    inverse. *)
Lemma C_ring_theory :
  ring_theory (RtoC 0) (RtoC 1) Cadd Cmul Csub Copp (@eq C).
Proof. constructor; intros; apply C_eq; cbn; ring. Qed.

Add Ring C_ring : C_ring_theory.

Definition Cinv (w : C) : C := mkC (Re w / Cnorm2 w) (- Im w / Cnorm2 w).

Lemma Cdiv_inv (z w : C) : (z / w)%C = (z * Cinv w)%C.
Proof. apply C_eq; cbn; unfold Rdiv; ring. Qed.

Lemma Cinv_r (w : C) : w ≠ RtoC 0 → (w * Cinv w)%C = RtoC 1.
Proof.
  intros Hw.
  assert (Hn : Cnorm2 w ≠ 0) by (intros H0; apply Hw, Cnorm2_zero, H0).
  apply C_eq; cbn; unfold Cnorm2 in *; field; exact Hn.
Qed.

Lemma Cinv_mul (z w : C) : Cinv (z * w) = (Cinv z * Cinv w)%C.
Proof.
  apply C_eq; cbn; rewrite Cnorm2_mul; unfold Rdiv; rewrite Rinv_mult;
    unfold Cnorm2; ring.
Qed.

Lemma Cexp_add (z w : C) : Cexp (z + w) = (Cexp z * Cexp w)%C.
Proof.
  apply C_eq; cbn; rewrite exp_plus, ?cos_plus, ?sin_plus; ring.
Qed.

Lemma Cexp_opp_r (z : C) : (Cexp z * Cexp (- z))%C = RtoC 1.
Proof.
  rewrite <- Cexp_add. replace (z + - z)%C with (RtoC 0) by ring.
  apply Cexp_0.
Qed.

(** The exponent of [characteristic_func] without its last term, the only
    one in which the spot occurs. *)
Definition cf_exponent (self : ComputeHeston) (xi : C) (v0 tau : R) : C :=
  (let ixi := Ci * xi in
   let d := cf_d self xi in
   let g := (cf_b self xi - d) / cf_g_divisor self xi in
   let ee := Cexp (- d * tau) in
   ixi * r self * tau
   + RtoC (kappa self * theta self / (sigma self * sigma self))
     * ((cf_b self xi - d) * tau
        - RtoC 2 * Clog ((RtoC 1 - g * ee) / (RtoC 1 - g)))
   + (cf_b self xi - d) / RtoC (sigma self * sigma self)
     * ((RtoC 1 - ee) / (RtoC 1 - g * ee)) * v0)%C.

Lemma characteristic_func_exponent (self : ComputeHeston) (xi : C)
    (s0 v0 tau : R) :
  characteristic_func self xi s0 v0 tau
  = Cexp (cf_exponent self xi v0 tau + Ci * xi * Clog s0)%C.
Proof. reflexivity. Qed.

(** Scaling the spot multiplies the characteristic function by a phase. *)
Lemma characteristic_func_scale (self : ComputeHeston) (xi : C)
    (lam s0 v0 tau : R) :
  0 < lam → 0 < s0 →
  characteristic_func self xi (lam * s0) v0 tau
  = (characteristic_func self xi s0 v0 tau * Cexp (Ci * xi * RtoC (ln lam)))%C.
Proof.
  intros Hl Hs. rewrite !characteristic_func_exponent.
  rewrite (Clog_pos (lam * s0)) by nra. rewrite (Clog_pos s0 Hs).
  rewrite ln_mult by assumption. rewrite <- Cexp_add. f_equal.
  replace (RtoC (ln lam + ln s0)) with (RtoC (ln lam) + RtoC (ln s0))%C
    by (apply C_eq; cbn; ring).
  ring.
Qed.

(** X12. In exact arithmetic, scaling the spot and the strike by the same
    positive factor leaves [integ_func] unchanged at every xi other than 0,
    for either value of [num], so that the function [h] integrated by
    [call_price] is multiplied by that factor. *)
Theorem integ_func_homogeneous (self : ComputeHeston)
    (xi lam s0 v0 K tau : R) :
  xi ≠ 0 → 0 < lam → 0 < s0 → 0 < K →
  (∀ num, integ_func self xi (lam * s0) v0 (lam * K) tau num
          = integ_func self xi s0 v0 K tau num) ∧
  call_price_h self (lam * s0) v0 (lam * K) tau xi
  = (y ← call_price_h self s0 v0 K tau xi; Ok (lam * y)).
Proof.
  intros Hxi Hl Hs HK.
  assert (Hinteg : ∀ num, integ_func self xi (lam * s0) v0 (lam * K) tau num
                          = integ_func self xi s0 v0 K tau num).
  { intros num. rewrite !integ_func_returns by exact Hxi. f_equal.
    rewrite !characteristic_func_scale by assumption.
    rewrite (Clog_pos (lam * K)) by nra. rewrite (Clog_pos K HK).
    rewrite ln_mult by assumption.
    replace (RtoC (ln lam + ln K)) with (RtoC (ln lam) + RtoC (ln K))%C
      by (apply C_eq; cbn; ring).
    set (E := Cexp (Ci * xi * RtoC (ln lam))%C).
    set (E' := Cexp (- (Ci * xi * RtoC (ln lam)))%C).
    set (E2 := Cexp (Ci * - Ci * RtoC (ln lam))%C).
    set (F := Cexp (- (Ci * xi) * RtoC (ln K))%C).
    assert (HE : (E * E')%C = RtoC 1) by apply Cexp_opp_r.
    assert (HE2 : (E2 * Cinv E2)%C = RtoC 1) by apply Cinv_r, Cexp_nonzero.
    assert (HE1 : Cexp (Ci * (xi - Ci) * RtoC (ln lam))%C = (E2 * E)%C).
    { unfold E2, E. rewrite <- Cexp_add. f_equal. ring. }
    assert (HF : Cexp (- (Ci * xi) * (RtoC (ln lam) + RtoC (ln K)))%C
                 = (F * E')%C).
    { unfold F, E'. rewrite <- Cexp_add. f_equal. ring. }
    rewrite HE1, HF. rewrite !Cdiv_inv, !Cinv_mul.
    destruct (decide (num = 1%Z)); f_equal.
    - set (A := characteristic_func self (xi - Ci)%C s0 v0 tau).
      set (B := Cinv (characteristic_func self (- Ci)%C s0 v0 tau)).
      set (I := (Cinv Ci * Cinv xi)%C).
      transitivity (A * (I * B) * F * (E * E') * (E2 * Cinv E2))%C; [ring|].
      rewrite HE, HE2. ring.
    - set (A := characteristic_func self xi s0 v0 tau).
      set (I := (Cinv Ci * Cinv xi)%C).
      transitivity (A * I * F * (E * E'))%C; [ring|].
      rewrite HE. ring. }
  split; [exact Hinteg|].
  unfold call_price_h. rewrite !Hinteg.
  destruct (integ_func self xi s0 v0 K tau 1) as [i1|]; [|reflexivity].
  destruct (integ_func self xi s0 v0 K tau 2) as [i2|]; [|reflexivity].
  cbn. f_equal. ring.
Qed.

Lemma integ_func_homogeneous_witness :
  integ_func benchmark 250 (2 * 100) 0.04 (2 * 100) 1 1
  = integ_func benchmark 250 100 0.04 100 1 1.
Proof.
  apply (proj1 (integ_func_homogeneous benchmark 250 2 100 0.04 100 1
                  ltac:(lra) ltac:(lra) ltac:(lra) ltac:(lra))).
Defined.

End PricerFacts.
